(** * Casino games: the Minesweeper engine and the betting ledger

    A shallow embedding of [MinesweeperGame] and [GamblingSystem] of
    [Casino_agurez_source.py], and the properties of the specification
    checked against it.

    Conventions of the embedding.
    - Python ints are [Z]; Python floats are the kernel's binary64 floats
      ([PrimFloat.float]), whose operations round exactly as CPython's do.
    - The three matrices [board], [revealed] and [flagged] are lists of
      rows, read with [mget] and written with [mset].  Every index the
      source uses is produced by [range] or checked by
      [_is_valid_position] first, so Python's negative-index wrap-around
      and [IndexError] never come into play.
    - [random.sample] and [random.choice] are inputs of the model: the
      constructor takes the sampled mine positions, [reveal_cell] takes the
      number drawn for the relocation of the first-click mine.
    - [self] is passed and returned explicitly.  [_flood_fill] is recursive
      in the source; here it recurses on a fuel counter and returns [None]
      when the counter runs out, which is shown never to happen for the
      fuel [reveal_cell] supplies.  The depth of the recursion is at most
      one more than the number of hidden cells (481 on the largest grid);
      Python's recursion limit is not modelled.
    - Of the window classes only what they compute is modelled: the tests
      on a bet, the settlement of a Minesweeper round by its clicks, the
      values of Blackjack hands with the dealer's draw, and the results of a
      spin of the reels.  Widgets, dialogs, sound and animation are left
      out. *)

From Stdlib Require Import ZArith Floats Lia Bool.
From stdpp Require Import base list gmap strings.

Local Open Scope string_scope.
Local Open Scope Z_scope.
Local Open Scope list_scope.
#[local] Set Warnings "-clear-no-such-hyp".

(** ** Matrices as lists of rows *)

Section matrix.
Context {A : Type}.

(** [[[v for _ in range(cols)] for _ in range(rows)]] *)
Definition make_matrix (nrows ncols : Z) (v : A) : list (list A) :=
  replicate (Z.to_nat nrows) (replicate (Z.to_nat ncols) v).

(** [m[r][c]], for an index in range; [d] otherwise. *)
Definition mget (d : A) (m : list (list A)) (r c : Z) : A :=
  match m !! Z.to_nat r with
  | Some row => default d (row !! Z.to_nat c)
  | None => d
  end.

(** [m[r][c] = v], for an index in range. *)
Definition mset (m : list (list A)) (r c : Z) (v : A) : list (list A) :=
  alter (fun row => <[Z.to_nat c := v]> row) (Z.to_nat r) m.
End matrix.

(** [range(n)] *)
Definition range (n : Z) : list Z := seqZ 0 n.

(** [[(r, c) for r in range(rows) for c in range(cols)]] *)
Definition all_cells (nrows ncols : Z) : list (Z * Z) :=
  list_prod (range nrows) (range ncols).

(** [random.choice(l)] for a non-empty [l]: the element at a random index
    below [len(l)]; [pick] is the number drawn, [d] is never returned. *)
Definition random_choice {A} (pick : nat) (d : A) (l : list A) : A :=
  nth (pick mod length l)%nat l d.

(** What [random.sample(population, k)] may return: [k] elements taken
    from the population without replacement. *)
Definition is_sample {A} (population : list A) (k : Z) (s : list A) : Prop :=
  Z.of_nat (length s) = k ∧ s ⊆+ population.

(** ** Configuration *)

Definition INITIAL_BANKROLL : float := 100%float.
Definition MIN_BET : float := 1%float.
Definition MAX_BET : float := 1000%float.

Module Cfg.
(** One entry of [DIFFICULTIES]. *)
Record t := mk { rows : Z; cols : Z; mines : Z; multiplier : float }.
End Cfg.

Definition DIFFICULTIES : gmap string Cfg.t :=
  list_to_map
    [ ("easy",   Cfg.mk 9 9 10 1.5%float);
      ("medium", Cfg.mk 16 16 40 2%float);
      ("hard",   Cfg.mk 16 30 99 2.5%float) ].

(** Python exceptions the modelled code can raise. *)
Inductive exn := KeyError (key : string).

(** ** MinesweeperGame *)

Record MinesweeperGame := mkGame {
  difficulty : string;
  settings : Cfg.t;
  rows : Z;
  cols : Z;
  mines : Z;
  board : list (list Z);
  revealed : list (list bool);
  flagged : list (list bool);
  game_over : bool;
  game_won : bool;
  first_click : bool
}.

Definition set_board (g : MinesweeperGame) (b : list (list Z)) :=
  mkGame (difficulty g) (settings g) (rows g) (cols g) (mines g)
         b (revealed g) (flagged g) (game_over g) (game_won g) (first_click g).
Definition set_revealed (g : MinesweeperGame) (m : list (list bool)) :=
  mkGame (difficulty g) (settings g) (rows g) (cols g) (mines g)
         (board g) m (flagged g) (game_over g) (game_won g) (first_click g).
Definition set_flagged (g : MinesweeperGame) (m : list (list bool)) :=
  mkGame (difficulty g) (settings g) (rows g) (cols g) (mines g)
         (board g) (revealed g) m (game_over g) (game_won g) (first_click g).
Definition set_over (g : MinesweeperGame) (over won : bool) :=
  mkGame (difficulty g) (settings g) (rows g) (cols g) (mines g)
         (board g) (revealed g) (flagged g) over won (first_click g).
Definition set_first_click (g : MinesweeperGame) (b : bool) :=
  mkGame (difficulty g) (settings g) (rows g) (cols g) (mines g)
         (board g) (revealed g) (flagged g) (game_over g) (game_won g) b.

(** [0 <= row < rows and 0 <= col < cols] *)
Definition valid_position (nrows ncols row col : Z) : bool :=
  (0 <=? row) && (row <? nrows) && ((0 <=? col) && (col <? ncols)).

Definition _is_valid_position (g : MinesweeperGame) (row col : Z) : bool :=
  valid_position (rows g) (cols g) row col.

(** The loop [for r, c in mine_positions: self.board[r][c] = -1]. *)
Definition place_on (b : list (list Z)) (mine_positions : list (Z * Z)) :=
  foldl (fun b p => mset b p.1 p.2 (-1)) b mine_positions.

Definition _place_mines (g : MinesweeperGame) (mine_positions : list (Z * Z)) :=
  set_board g (place_on (board g) mine_positions).

(** The two inner loops of [_calculate_numbers]: [mine_count] for (r, c). *)
Definition count_adjacent (nrows ncols : Z) (b : list (list Z)) (r c : Z) : Z :=
  foldl (fun mine_count dr =>
    foldl (fun mine_count dc =>
      if (dr =? 0) && (dc =? 0) then mine_count
      else
        let nr := r + dr in
        let nc := c + dc in
        if valid_position nrows ncols nr nc then
          if mget 0 b nr nc =? -1 then mine_count + 1 else mine_count
        else mine_count)
      mine_count [-1; 0; 1])
    0 [-1; 0; 1].

(** The body of the two outer loops of [_calculate_numbers]. *)
Definition calc_cell (nrows ncols : Z) (b : list (list Z)) (r c : Z) :=
  if mget 0 b r c =? -1 then b
  else mset b r c (count_adjacent nrows ncols b r c).

Definition calculate_on (nrows ncols : Z) (b : list (list Z)) :=
  foldl (fun b r => foldl (fun b c => calc_cell nrows ncols b r c) b (range ncols))
        b (range nrows).

Definition _calculate_numbers (g : MinesweeperGame) :=
  set_board g (calculate_on (rows g) (cols g) (board g)).

(** [__init__], after the lookup of the difficulty. *)
Definition new_game (d : string) (s : Cfg.t) (mine_positions : list (Z * Z)) :=
  let g := mkGame d s (Cfg.rows s) (Cfg.cols s) (Cfg.mines s)
             (make_matrix (Cfg.rows s) (Cfg.cols s) 0)
             (make_matrix (Cfg.rows s) (Cfg.cols s) false)
             (make_matrix (Cfg.rows s) (Cfg.cols s) false)
             false false true in
  _calculate_numbers (_place_mines g mine_positions).

(** [MinesweeperGame(difficulty)]; [mine_positions] is what [random.sample]
    returned. *)
Definition MinesweeperGame_init (d : string) (mine_positions : list (Z * Z))
  : exn + MinesweeperGame :=
  match DIFFICULTIES !! d with
  | Some s => inr (new_game d s mine_positions)
  | None => inl (KeyError d)
  end.

(** [safe_spots] of [_ensure_safe_first_click]. *)
Definition safe_spots (g : MinesweeperGame) (row col : Z) : list (Z * Z) :=
  filter (fun p => negb (mget 0 (board g) p.1 p.2 =? -1)
                   && (negb (p.1 =? row) || negb (p.2 =? col)) = true)
         (all_cells (rows g) (cols g)).

Definition _ensure_safe_first_click (g : MinesweeperGame) (row col : Z) (pick : nat) :=
  if mget 0 (board g) row col =? -1 then
    match safe_spots g row col with
    | [] => g
    | d :: _ =>
        let new := random_choice pick d (safe_spots g row col) in
        let g := set_board g (mset (board g) row col 0) in
        let g := set_board g (mset (board g) new.1 new.2 (-1)) in
        _calculate_numbers g
    end
  else g.

(** Monadic left fold: a [for] loop whose body may run out of fuel. *)
Fixpoint foldM {S X} (f : S -> X -> option S) (s : S) (l : list X) : option S :=
  match l with
  | [] => Some s
  | x :: l => match f s x with Some s' => foldM f s' l | None => None end
  end.

Fixpoint _flood_fill (fuel : nat) (g : MinesweeperGame) (row col : Z)
  : option MinesweeperGame :=
  match fuel with
  | O => None
  | S fuel =>
      if negb (_is_valid_position g row col) || mget false (revealed g) row col
      then Some g
      else
        let g := set_revealed g (mset (revealed g) row col true) in
        if mget 0 (board g) row col =? 0 then
          foldM (fun g dr =>
            foldM (fun g dc =>
              if (dr =? 0) && (dc =? 0) then Some g
              else _flood_fill fuel g (row + dr) (col + dc))
              g [-1; 0; 1])
            g [-1; 0; 1]
        else Some g
  end.

(** [revealed_count] of [_check_win_condition]. *)
Definition revealed_count (g : MinesweeperGame) : Z :=
  foldl (fun n r =>
    foldl (fun n c => if mget false (revealed g) r c then n + 1 else n)
          n (range (cols g)))
    0 (range (rows g)).

Definition _check_win_condition (g : MinesweeperGame) :=
  let total_cells := rows g * cols g in
  let safe_cells := total_cells - mines g in
  if revealed_count g =? safe_cells then set_over g true true else g.

(** Fuel for the outermost [_flood_fill] call: one more than the number of
    cells of the grid. *)
Definition flood_fuel (g : MinesweeperGame) : nat := S (Z.to_nat (rows g * cols g)).

(** [reveal_cell]: the new state and the returned flag; [None] only if
    [_flood_fill] ran out of fuel. *)
Definition reveal_cell (g : MinesweeperGame) (row col : Z) (pick : nat)
  : option (MinesweeperGame * bool) :=
  if game_over g || negb (_is_valid_position g row col) then Some (g, false)
  else if mget false (revealed g) row col || mget false (flagged g) row col
  then Some (g, false)
  else
    let g :=
      if first_click g && (mget 0 (board g) row col =? -1)
      then _ensure_safe_first_click g row col pick else g in
    let g := set_first_click g false in
    if mget 0 (board g) row col =? -1 then Some (set_over g true false, true)
    else
      match _flood_fill (flood_fuel g) g row col with
      | Some g => Some (_check_win_condition g, true)
      | None => None
      end.

Definition toggle_flag (g : MinesweeperGame) (row col : Z) : MinesweeperGame * bool :=
  if game_over g || negb (_is_valid_position g row col) then (g, false)
  else if mget false (revealed g) row col then (g, false)
  else
    (set_flagged g (mset (flagged g) row col (negb (mget false (flagged g) row col))),
     true).

Definition is_game_over (g : MinesweeperGame) : bool := game_over g.
Definition is_game_won (g : MinesweeperGame) : bool := game_won g.

(** The terminal state of the specification, read off the two flags. *)
Inductive terminal := NotOver | Won | Lost.

Definition terminal_of (g : MinesweeperGame) : terminal :=
  if game_over g then (if game_won g then Won else Lost) else NotOver.

(** ** GamblingSystem *)

Record GamblingSystem := mkLedger {
  bankroll : float;
  current_bet : float;
  current_difficulty : string
}.

Definition GamblingSystem_init : GamblingSystem :=
  mkLedger INITIAL_BANKROLL 0%float "easy".

(** The message of the pair [place_bet] returns, before formatting. *)
Inductive bet_message :=
| BetOutOfBounds (lo hi : float)
| InsufficientFunds
| BetPlaced (amount : float) (d : string).

Definition place_bet (gs : GamblingSystem) (amount : float) (d : string)
  : GamblingSystem * (bool * bet_message) :=
  if (amount <? MIN_BET)%float || (MAX_BET <? amount)%float
  then (gs, (false, BetOutOfBounds MIN_BET MAX_BET))
  else if (bankroll gs <? amount)%float
  then (gs, (false, InsufficientFunds))
  else (mkLedger (bankroll gs) amount d, (true, BetPlaced amount d)).

(** The dict [win_game] returns; its 'outcome' entry, always 'win', is the
    type of the record. *)
Record win_result := mkWin {
  payout : float;
  profit : float;
  win_new_bankroll : float
}.

(** The dict [lose_game] returns; its 'outcome' entry is always 'lose'. *)
Record lose_result := mkLose {
  loss : float;
  lose_new_bankroll : float
}.

Definition win_game (gs : GamblingSystem) : exn + (GamblingSystem * win_result) :=
  match DIFFICULTIES !! current_difficulty gs with
  | None => inl (KeyError (current_difficulty gs))
  | Some s =>
      let payout := (current_bet gs * Cfg.multiplier s)%float in
      let new_bankroll := (bankroll gs + payout)%float in
      let profit := (payout - current_bet gs)%float in
      inr (mkLedger new_bankroll 0%float (current_difficulty gs),
           mkWin payout profit new_bankroll)
  end.

Definition lose_game (gs : GamblingSystem) : GamblingSystem * lose_result :=
  let loss := current_bet gs in
  let new_bankroll := (bankroll gs - loss)%float in
  (mkLedger new_bankroll 0%float (current_difficulty gs), mkLose loss new_bankroll).

(** ** Vocabulary of the specification *)

(** A matrix of [nrows] rows of [ncols] entries each. *)
Definition wf_matrix {A} (nrows ncols : Z) (m : list (list A)) : Prop :=
  length m = Z.to_nat nrows ∧ Forall (fun row => length row = Z.to_nat ncols) m.

(** The cell holds the mine sentinel. *)
Definition is_mine (b : list (list Z)) (p : Z * Z) : Prop := mget 0 b p.1 p.2 = -1.

#[global] Instance is_mine_dec b p : Decision (is_mine b p).
Proof. unfold is_mine. apply _. Defined.

(** Two boards with the same mines inside the grid. *)
Definition same_mines (nrows ncols : Z) (b b' : list (list Z)) : Prop :=
  ∀ p, valid_position nrows ncols p.1 p.2 = true → is_mine b p ↔ is_mine b' p.

(** The offsets of the eight neighbours of a cell. *)
Definition offsets : list (Z * Z) :=
  [(-1, -1); (-1, 0); (-1, 1); (0, -1); (0, 1); (1, -1); (1, 0); (1, 1)].

(** The number of neighbours of (r, c) that are inside the grid and mines. *)
Definition mine_neighbors (nrows ncols : Z) (b : list (list Z)) (r c : Z) : Z :=
  Z.of_nat (length (filter
    (fun d => valid_position nrows ncols (r + d.1) (c + d.2) = true
              ∧ is_mine b (r + d.1, c + d.2))
    offsets)).

(** Every cell that is not a mine holds the number of its mine neighbours. *)
Definition numbers_ok (nrows ncols : Z) (b : list (list Z)) : Prop :=
  ∀ r c, valid_position nrows ncols r c = true → ¬ is_mine b (r, c) →
         mget 0 b r c = mine_neighbors nrows ncols b r c.

(** The cells of the game that are mines. *)
Definition mine_cells (g : MinesweeperGame) : list (Z * Z) :=
  filter (is_mine (board g)) (all_cells (rows g) (cols g)).

(** The cells of the game that are revealed. *)
Definition revealed_cells (g : MinesweeperGame) : list (Z * Z) :=
  filter (fun p => mget false (revealed g) p.1 p.2 = true) (all_cells (rows g) (cols g)).

(** A tier as the data model of the specification has it. *)
Definition valid_tier (s : Cfg.t) : Prop :=
  0 < Cfg.rows s ∧ 0 < Cfg.cols s ∧ 0 ≤ Cfg.mines s < Cfg.rows s * Cfg.cols s.

(** The three matrices have the dimensions of the game. *)
Definition wf_game (g : MinesweeperGame) : Prop :=
  wf_matrix (rows g) (cols g) (board g)
  ∧ wf_matrix (rows g) (cols g) (revealed g)
  ∧ wf_matrix (rows g) (cols g) (flagged g).

(** The states a game goes through: construction for a tier, then any
    sequence of [reveal_cell] and [toggle_flag] calls. *)
Inductive reachable : MinesweeperGame → Prop :=
| reach_new d s mine_positions :
    valid_tier s →
    is_sample (all_cells (Cfg.rows s) (Cfg.cols s)) (Cfg.mines s) mine_positions →
    reachable (new_game d s mine_positions)
| reach_reveal g row col pick g' changed :
    reachable g → reveal_cell g row col pick = Some (g', changed) → reachable g'
| reach_flag g row col :
    reachable g → reachable (toggle_flag g row col).1.

(** The cells of the game that are not revealed. *)
Definition hidden_cells (g : MinesweeperGame) : list (Z * Z) :=
  filter (fun p => mget false (revealed g) p.1 p.2 = false) (all_cells (rows g) (cols g)).

(** [g'] is [g] with more cells revealed, none of the new ones a mine. *)
Definition extends_revealed (g g' : MinesweeperGame) : Prop :=
  g' = set_revealed g (revealed g')
  ∧ wf_matrix (rows g) (cols g) (revealed g')
  ∧ (∀ p, valid_position (rows g) (cols g) p.1 p.2 = true →
          mget false (revealed g) p.1 p.2 = true →
          mget false (revealed g') p.1 p.2 = true)
  ∧ (∀ p, valid_position (rows g) (cols g) p.1 p.2 = true →
          mget false (revealed g') p.1 p.2 = true →
          mget false (revealed g) p.1 p.2 = true ∨ ¬ is_mine (board g) p).

(** The game in which [reveal_cell] looks at the target cell: after the
    relocation of a mine hit by the first click, if any. *)
Definition after_safety (g : MinesweeperGame) (row col : Z) (pick : nat) :=
  if first_click g && (mget 0 (board g) row col =? -1)
  then _ensure_safe_first_click g row col pick else g.

(** What holds of every state a game goes through. *)
Definition game_inv (g : MinesweeperGame) : Prop :=
  wf_game g
  ∧ (0 < rows g ∧ 0 < cols g ∧ 0 ≤ mines g < rows g * cols g)
  ∧ numbers_ok (rows g) (cols g) (board g)
  ∧ (∀ p, valid_position (rows g) (cols g) p.1 p.2 = true →
          mget false (revealed g) p.1 p.2 = true → ¬ is_mine (board g) p)
  ∧ (first_click g = true →
     ∀ p, valid_position (rows g) (cols g) p.1 p.2 = true →
          mget false (revealed g) p.1 p.2 = false)
  ∧ (game_won g = true → game_over g = true)
  ∧ (game_won g = true ↔ revealed_count g = rows g * cols g - mines g).

(** No cell of the grid is both revealed and flagged. *)
Definition revealed_flagged_disjoint (g : MinesweeperGame) : Prop :=
  ∀ p, valid_position (rows g) (cols g) p.1 p.2 = true →
       ¬ (mget false (revealed g) p.1 p.2 = true ∧ mget false (flagged g) p.1 p.2 = true).

(** Two floats that are the same amount of money: identical, or equal as
    Python's [==] has it (which identifies the two zeros). *)
Definition same_amount (x y : float) : Prop := x = y ∨ (x =? y)%float = true.

(** ** Concrete inputs used by the examples *)

(** A sample [random.sample] can return for the easy tier: the top row and the
    first cell of the second row. *)
Definition top_mines : list (Z * Z) :=
  [(0, 0); (0, 1); (0, 2); (0, 3); (0, 4); (0, 5); (0, 6); (0, 7); (0, 8); (1, 0)].

Definition easy : Cfg.t := Cfg.mk 9 9 10 1.5%float.

(** The ledger after a bet of 10 on the easy tier, from the initial bankroll. *)
Definition bet_10_easy : GamblingSystem := mkLedger 100%float 10%float "easy".

(** ** Vocabulary of the further properties *)

(** [g'] is [g] with more cells revealed. *)
Definition reveals_more (g g' : MinesweeperGame) : Prop :=
  g' = set_revealed g (revealed g')
  ∧ wf_matrix (rows g) (cols g) (revealed g')
  ∧ (∀ p, valid_position (rows g) (cols g) p.1 p.2 = true →
          mget false (revealed g) p.1 p.2 = true →
          mget false (revealed g') p.1 p.2 = true).

(** Every cell showing 0 that is revealed in [g'] and was hidden in [g0] has
    all its neighbours inside the grid revealed in [g']. *)
Definition zero_closed_from (g0 g' : MinesweeperGame) : Prop :=
  ∀ p, valid_position (rows g') (cols g') p.1 p.2 = true →
       mget false (revealed g') p.1 p.2 = true →
       mget false (revealed g0) p.1 p.2 = false →
       mget 0 (board g') p.1 p.2 = 0 →
       ∀ d, d ∈ offsets →
            valid_position (rows g') (cols g') (p.1 + d.1) (p.2 + d.2) = true →
            mget false (revealed g') (p.1 + d.1) (p.2 + d.2) = true.

(** Every revealed cell showing 0 has all its neighbours revealed. *)
Definition zero_closed (g : MinesweeperGame) : Prop :=
  ∀ p, valid_position (rows g) (cols g) p.1 p.2 = true →
       mget false (revealed g) p.1 p.2 = true →
       mget 0 (board g) p.1 p.2 = 0 →
       ∀ d, d ∈ offsets →
            valid_position (rows g) (cols g) (p.1 + d.1) (p.2 + d.2) = true →
            mget false (revealed g) (p.1 + d.1) (p.2 + d.2) = true.

(** The second part of what holds of every state a game goes through: the
    number of mines, and the closure of the revealed cells showing 0. *)
Definition game_inv2 (g : MinesweeperGame) : Prop :=
  Z.of_nat (length (mine_cells g)) = mines g ∧ zero_closed g.

(** The calls a player makes on a game. *)
Inductive move :=
| Reveal (row col : Z) (pick : nat)
| Flag (row col : Z).

Definition apply_move (g : MinesweeperGame) (m : move) : option MinesweeperGame :=
  match m with
  | Reveal row col pick =>
      match reveal_cell g row col pick with
      | Some (g', _) => Some g'
      | None => None
      end
  | Flag row col => Some (toggle_flag g row col).1
  end.

(** A sequence of calls, one after the other. *)
Definition play (g : MinesweeperGame) (ms : list move) : option MinesweeperGame :=
  foldM apply_move g ms.

(** ** The callers of the ledger *)

(** Python's [min(a, b)]: the first argument unless the second is smaller. *)
Definition py_min (a b : float) : float := if (b <? a)%float then b else a.

(** The test of [confirm_bet]: [MIN_BET <= bet <= max_bet] with
    [max_bet = min(self.gambling.bankroll, MAX_BET)]. *)
Definition bet_in_range (gs : GamblingSystem) (bet : float) : bool :=
  (MIN_BET <=? bet)%float && (bet <=? py_min (bankroll gs) MAX_BET)%float.

(** [confirm_bet] of the Minesweeper menu: the ledger it leaves, and whether
    it goes on to [start_game]; the pair [place_bet] returns is dropped, the
    windows and the error dialog are left out. *)
Definition confirm_bet (gs : GamblingSystem) (bet : float) (d : string)
  : GamblingSystem * bool :=
  if bet_in_range gs bet then ((place_bet gs bet d).1, true) else (gs, false).

(** The test with which [start_hand] (Blackjack) and [play_slots] (Slots)
    refuse a bet: [bet < MIN_BET or bet > max_bet]. *)
Definition bet_refused (gs : GamblingSystem) (bet : float) : bool :=
  (bet <? MIN_BET)%float || (py_min (bankroll gs) MAX_BET <? bet)%float.

(** [handle_game_end]: the settlement that matches the outcome of the game;
    the message boxes are left out. *)
Definition handle_game_end (g : MinesweeperGame) (gs : GamblingSystem)
  : exn + GamblingSystem :=
  if is_game_won g then
    match win_game gs with
    | inr (gs', _) => inr gs'
    | inl e => inl e
    end
  else inr (lose_game gs).1.

(** The clicks of the Minesweeper window. *)
Inductive click :=
| LeftClick (row col : Z) (pick : nat)
| RightClick (row col : Z).

(** The result of running code that may raise or, in the model, run out of
    fuel. *)
Inductive outcome (A : Type) :=
| Done (a : A)
| Raised (e : exn)
| OutOfFuel.
Arguments Done {A} a.
Arguments Raised {A} e.
Arguments OutOfFuel {A}.

(** [left_click]: nothing on a game that is over; otherwise [reveal_cell],
    and [handle_game_end] if that ends the game.  The display is left out. *)
Definition left_click (g : MinesweeperGame) (gs : GamblingSystem)
    (row col : Z) (pick : nat) : outcome (MinesweeperGame * GamblingSystem) :=
  if is_game_over g then Done (g, gs)
  else
    match reveal_cell g row col pick with
    | None => OutOfFuel
    | Some (g', _) =>
        if is_game_over g' then
          match handle_game_end g' gs with
          | inr gs' => Done (g', gs')
          | inl e => Raised e
          end
        else Done (g', gs)
    end.

(** [right_click]: nothing on a game that is over; otherwise [toggle_flag]. *)
Definition right_click (g : MinesweeperGame) (gs : GamblingSystem) (row col : Z)
  : MinesweeperGame * GamblingSystem :=
  if is_game_over g then (g, gs) else ((toggle_flag g row col).1, gs).

Definition do_click (st : MinesweeperGame * GamblingSystem) (c : click)
  : outcome (MinesweeperGame * GamblingSystem) :=
  match c with
  | LeftClick row col pick => left_click st.1 st.2 row col pick
  | RightClick row col => Done (right_click st.1 st.2 row col)
  end.

(** A sequence of clicks, stopping at the first exception. *)
Fixpoint do_clicks (st : MinesweeperGame * GamblingSystem) (cs : list click)
  : outcome (MinesweeperGame * GamblingSystem) :=
  match cs with
  | [] => Done st
  | c :: cs =>
      match do_click st c with
      | Done st' => do_clicks st' cs
      | Raised e => Raised e
      | OutOfFuel => OutOfFuel
      end
  end.

(** *** The order of the floats *)

(** A key whose lexicographic order is the order of the floats; NaN has
    none. *)
Definition float_key (x : spec_float) : option (Z * Z * Z) :=
  match x with
  | S754_nan => None
  | S754_infinity true => Some (0, 0, 0)
  | S754_finite true m e => Some (1, - e, - Z.pos m)
  | S754_zero _ => Some (2, 0, 0)
  | S754_finite false m e => Some (3, e, Z.pos m)
  | S754_infinity false => Some (4, 0, 0)
  end.

Definition key_lt (a b : Z * Z * Z) : Prop :=
  a.1.1 < b.1.1 ∨ (a.1.1 = b.1.1 ∧ (a.1.2 < b.1.2 ∨ (a.1.2 = b.1.2 ∧ a.2 < b.2))).

(** The float is a number: Python's [x == x]. *)
Definition is_number (x : float) : Prop := (x =? x)%float = true.


(** ** Blackjack *)

(** A card: its rank and its suit. *)
Definition card : Type := string * string.

Definition suits : list string := ["‚ô†"; "‚ô•"; "‚ô¶"; "‚ô£"].

Definition ranks : list string :=
  ["2"; "3"; "4"; "5"; "6"; "7"; "8"; "9"; "10"; "J"; "Q"; "K"; "A"].

(** [list(itertools.product(ranks, suits)) * 4] *)
Definition create_deck : list card := concat (replicate 4 (list_prod ranks suits)).

(** The exceptions of the card game. *)
Inductive bj_exn := ValueError (literal : string) | IndexError.

Definition digit_value (a : Ascii.ascii) : option Z :=
  let n := Z.of_nat (Ascii.nat_of_ascii a) in
  if (48 <=? n) && (n <=? 57) then Some (n - 48) else None.

Fixpoint int_digits (acc : Z) (s : string) : option Z :=
  match s with
  | EmptyString => Some acc
  | String a s =>
      match digit_value a with
      | Some d => int_digits (10 * acc + d) s
      | None => None
      end
  end.

(** [int(s)] for a string of ASCII digits, [ValueError] for the empty string
    and for a character that is no digit.  Python's [int] also reads signs,
    blanks and underscores; no rank has any, and the properties below are
    about ranks of the deck only. *)
Definition py_int (s : string) : bj_exn + Z :=
  match s with
  | EmptyString => inl (ValueError s)
  | _ => match int_digits 0 s with
         | Some n => inr n
         | None => inl (ValueError s)
         end
  end.

(** The body of the [for] loop of [hand_value]; [aces] counts up from 0 and
    is a natural number. *)
Definition count_card (st : Z * nat) (c : card) : bj_exn + (Z * nat) :=
  let rank := c.1 in
  if bool_decide (rank ∈ ["J"; "Q"; "K"]) then inr (st.1 + 10, st.2)
  else if bool_decide (rank = "A") then inr (st.1 + 11, S st.2)
  else match py_int rank with
       | inr n => inr (st.1 + n, st.2)
       | inl e => inl e
       end.

Fixpoint count_cards (st : Z * nat) (hand : list card) : bj_exn + (Z * nat) :=
  match hand with
  | [] => inr st
  | c :: hand =>
      match count_card st c with
      | inr st' => count_cards st' hand
      | inl e => inl e
      end
  end.

(** [while value > 21 and aces: value -= 10; aces -= 1] *)
Fixpoint soften (value : Z) (aces : nat) : Z :=
  match aces with
  | O => value
  | S aces' => if 21 <? value then soften (value - 10) aces' else value
  end.

Definition hand_value (hand : list card) : bj_exn + Z :=
  match count_cards (0, O) hand with
  | inr (value, aces) => inr (soften value aces)
  | inl e => inl e
  end.

(** The loop of [dealer_play], on the deck read from its top: [deck.pop()]
    takes the last card of the list. *)
Fixpoint dealer_draw (stack : list card) (hand : list card)
  : bj_exn + (list card * list card) :=
  match hand_value hand with
  | inl e => inl e
  | inr v =>
      if v <? 17 then
        match stack with
        | [] => inl IndexError
        | c :: stack' => dealer_draw stack' (hand ++ [c])
        end
      else inr (stack, hand)
  end.

(** [dealer_play] up to its call of [end_hand]: the deck and the hand of the
    dealer it leaves; the labels are left out. *)
Definition dealer_play (deck dealer_hand : list card)
  : bj_exn + (list card * list card) :=
  match dealer_draw (rev deck) dealer_hand with
  | inr (stack, hand) => inr (rev stack, hand)
  | inl e => inl e
  end.

(** The bankroll [end_hand] leaves; the labels and buttons are left out. *)
Definition end_hand (bank bet : float) (reason : string)
    (player_hand dealer_hand : list card) : bj_exn + float :=
  match hand_value player_hand with
  | inl e => inl e
  | inr player_val =>
      match hand_value dealer_hand with
      | inl e => inl e
      | inr dealer_val =>
          if bool_decide (reason = "bust") then inr (bank - bet)%float
          else if (21 <? dealer_val) || (dealer_val <? player_val)
          then inr (bank + bet)%float
          else if player_val =? dealer_val then inr bank
          else inr (bank - bet)%float
      end
  end.

(** The value of a card with its ace counted 1. *)
Definition low_value (c : card) : Z :=
  if bool_decide (c.1 ∈ ["J"; "Q"; "K"]) then 10
  else if bool_decide (c.1 = "A") then 1
  else match py_int c.1 with inr n => n | inl _ => 0 end.

(** The total of a hand with every ace counted 1. *)
Definition hard_total (hand : list card) : Z := foldr (fun c n => low_value c + n) 0 hand.

(** The number of aces of a hand. *)
Definition n_aces (hand : list card) : nat :=
  length (filter (fun c => c.1 = "A") hand).

(** The cards of the hand have ranks of the deck. *)
Definition deck_cards (hand : list card) : Prop := Forall (fun c => c.1 ∈ ranks) hand.

(** [stand]: [dealer_play], which ends with [end_hand('stand')]; the
    bankroll, the deck and the hand of the dealer it leaves. *)
Definition stand (bank bet : float) (deck player_hand dealer_hand : list card)
  : bj_exn + (float * list card * list card) :=
  match dealer_play deck dealer_hand with
  | inl e => inl e
  | inr (deck', dealer_hand') =>
      match end_hand bank bet "stand" player_hand dealer_hand' with
      | inl e => inl e
      | inr bank' => inr (bank', deck', dealer_hand')
      end
  end.

(** ** Slots *)

Definition symbols : list string := ["üçí"; "üçã"; "üîî"; "‚≠ê"; "üíé"; "7Ô∏è‚É£"].

(** The symbol [animate_spin] looks for in its third test. *)
Definition seven : string := "7Ô∏è‚É£".

(** The four results of a spin, named by their messages. *)
Inductive spin_result := Jackpot | Nice | LuckySeven | YouLose.

#[global] Instance spin_result_eq_dec : EqDecision spin_result.
Proof. solve_decision. Defined.

(** The tests of [animate_spin] on the three symbols drawn. *)
Definition spin_outcome (spin : string * string * string) : spin_result :=
  let '(a, b, c) := spin in
  if bool_decide (a = b) && bool_decide (b = c) then Jackpot
  else if (length (remove_dups [a; b; c]) =? 2)%nat then Nice
  else if bool_decide (seven ∈ [a; b; c]) then LuckySeven
  else YouLose.

(** The bankroll [animate_spin] leaves; sound, animation and labels are
    left out. *)
Definition settle_spin (bank bet : float) (spin : string * string * string) : float :=
  match spin_outcome spin with
  | Jackpot => (bank + bet * 20)%float
  | Nice => (bank + bet * 5)%float
  | LuckySeven => (bank + bet * 2)%float
  | YouLose => (bank - bet)%float
  end.

(** The multiple of the bet a spin adds to the bankroll. *)
Definition net_gain (r : spin_result) : Z :=
  match r with Jackpot => 20 | Nice => 5 | LuckySeven => 2 | YouLose => -1 end.

(** All the spins [animate_spin] can draw. *)
Definition all_spins : list (string * string * string) :=
  list_prod (list_prod symbols symbols) symbols.

(** * Properties *)

(** ** Matrices *)

Section matrix_facts.
Context {A : Type}.
Implicit Types (m : list (list A)) (v d : A) (r c : Z).

Lemma wf_make_matrix nrows ncols v : wf_matrix nrows ncols (make_matrix nrows ncols v).
Proof.
  split; [apply length_replicate|].
  apply Forall_replicate, length_replicate.
Qed.

Lemma wf_mset nrows ncols m r c v :
  wf_matrix nrows ncols m → wf_matrix nrows ncols (mset m r c v).
Proof.
  intros [Hl Hr]. split; [unfold mset; by rewrite length_alter|].
  apply Forall_alter; [done|]. intros row Hrow Hlen.
  by rewrite length_insert.
Qed.

Lemma valid_position_spec nrows ncols r c :
  valid_position nrows ncols r c = true ↔ (0 ≤ r < nrows ∧ 0 ≤ c < ncols).
Proof. unfold valid_position. rewrite !andb_true_iff. lia. Qed.

Lemma wf_lookup_row nrows ncols m r :
  wf_matrix nrows ncols m → 0 ≤ r < nrows →
  ∃ row, m !! Z.to_nat r = Some row ∧ length row = Z.to_nat ncols.
Proof.
  intros [Hl Hr] Hrr.
  destruct (lookup_lt_is_Some_2 m (Z.to_nat r)) as [row Hrow]; [lia|].
  exists row. split; [done|]. by eapply Forall_lookup in Hr.
Qed.

(** Inside a well-formed matrix [m[r][c]] is there: no [IndexError]. *)
Lemma mget_in_range d nrows ncols m r c :
  wf_matrix nrows ncols m → valid_position nrows ncols r c = true →
  ∃ row, m !! Z.to_nat r = Some row ∧ row !! Z.to_nat c = Some (mget d m r c).
Proof.
  intros Hwf Hv%valid_position_spec.
  destruct (wf_lookup_row nrows ncols m r) as (row & Hrow & Hlen); [done|lia|].
  exists row. split; [done|]. unfold mget. rewrite Hrow.
  destruct (lookup_lt_is_Some_2 row (Z.to_nat c)) as [x Hx]; [lia|].
  by rewrite Hx.
Qed.

Lemma mget_make_matrix d nrows ncols v r c :
  valid_position nrows ncols r c = true →
  mget d (make_matrix nrows ncols v) r c = v.
Proof.
  intros Hv%valid_position_spec. unfold mget, make_matrix.
  rewrite lookup_replicate_2 by lia. by rewrite lookup_replicate_2 by lia.
Qed.

Lemma mget_mset_eq d nrows ncols m r c v :
  wf_matrix nrows ncols m → valid_position nrows ncols r c = true →
  mget d (mset m r c v) r c = v.
Proof.
  intros Hwf Hv%valid_position_spec.
  destruct (wf_lookup_row nrows ncols m r) as (row & Hrow & Hlen); [done|lia|].
  unfold mget, mset. rewrite list_lookup_alter_eq, Hrow. simpl.
  by rewrite list_lookup_insert_eq by lia.
Qed.

Lemma mget_mset_ne d m r c v r' c' :
  0 ≤ r → 0 ≤ c → 0 ≤ r' → 0 ≤ c' → (r, c) ≠ (r', c') →
  mget d (mset m r c v) r' c' = mget d m r' c'.
Proof.
  intros ???? Hne. unfold mget, mset.
  destruct (decide (Z.to_nat r = Z.to_nat r')) as [Hr|Hr].
  - rewrite <- Hr, list_lookup_alter_eq.
    destruct (m !! Z.to_nat r) as [row|]; simpl; [|done].
    rewrite list_lookup_insert_ne; [done|].
    intros Hc. apply Hne. f_equal; lia.
  - by rewrite list_lookup_alter_ne.
Qed.
End matrix_facts.

(** ** The cells of the grid *)

Lemma elem_of_range n k : k ∈ range n ↔ 0 ≤ k < n.
Proof. unfold range. rewrite elem_of_seqZ. by rewrite Z.add_0_l. Qed.

Lemma elem_of_all_cells nrows ncols p :
  p ∈ all_cells nrows ncols ↔ valid_position nrows ncols p.1 p.2 = true.
Proof.
  unfold all_cells. rewrite list_elem_of_In. destruct p as [r c].
  rewrite in_prod_iff, <- !list_elem_of_In, !elem_of_range, valid_position_spec.
  done.
Qed.

Lemma NoDup_list_prod {A B} (l : list A) (k : list B) :
  NoDup l → NoDup k → NoDup (list_prod l k).
Proof.
  intros Hl Hk. induction Hl as [|x l Hx Hl IH]; simpl; [constructor|].
  apply NoDup_app. split_and!; [|  |done].
  - apply NoDup_fmap_2; [|done]. by intros ?? [= ->].
  - intros [a b] [y [[= <- <-] Hy]]%list_elem_of_fmap.
    rewrite list_elem_of_In, in_prod_iff, <- !list_elem_of_In. by intros [? _].
Qed.

Lemma NoDup_all_cells nrows ncols : NoDup (all_cells nrows ncols).
Proof. apply NoDup_list_prod; apply NoDup_seqZ. Qed.

Lemma length_all_cells nrows ncols :
  0 ≤ nrows → 0 ≤ ncols → Z.of_nat (length (all_cells nrows ncols)) = nrows * ncols.
Proof.
  intros. unfold all_cells, range. rewrite length_prod, !length_seqZ. lia.
Qed.

(** A loop nest over the grid visits the cells in the order of [all_cells]. *)
Lemma foldl_nest {S X Y} (f : S → X → Y → S) (l : list X) (k : list Y) (s : S) :
  foldl (fun s x => foldl (fun s y => f s x y) s k) s l
  = foldl (fun s p => f s p.1 p.2) s (list_prod l k).
Proof.
  revert s. induction l as [|x l IH]; intros s; simpl; [done|].
  rewrite foldl_app, <- IH. f_equal. clear IH.
  revert s. induction k as [|y k IHk]; intros s; simpl; [done|].
  by rewrite IHk.
Qed.

(** ** Mine placement *)

Lemma wf_place_on nrows ncols b ps :
  wf_matrix nrows ncols b → wf_matrix nrows ncols (place_on b ps).
Proof.
  unfold place_on. revert b. induction ps as [|p ps IH]; intros b Hb; simpl; [done|].
  by apply IH, wf_mset.
Qed.

Lemma mget_place_on nrows ncols b ps r c :
  wf_matrix nrows ncols b →
  (∀ p, p ∈ ps → valid_position nrows ncols p.1 p.2 = true) →
  valid_position nrows ncols r c = true →
  mget 0 (place_on b ps) r c = if decide ((r, c) ∈ ps) then -1 else mget 0 b r c.
Proof.
  unfold place_on. revert b. induction ps as [|p ps IH]; intros b Hb Hps Hv; cbn [foldl].
  { by rewrite decide_False by apply not_elem_of_nil. }
  rewrite IH; [|by apply wf_mset|intros; apply Hps; by right|done].
  assert (Hp := Hps p (list_elem_of_here _ _)).
  apply valid_position_spec in Hp as Hp'. apply valid_position_spec in Hv as Hv'.
  destruct (decide ((r, c) ∈ ps)) as [Hin|Hin].
  - rewrite decide_True; [done|by right].
  - destruct (decide (p = (r, c))) as [->|Hne].
    + rewrite decide_True by left. by erewrite mget_mset_eq.
    + rewrite decide_False by (rewrite elem_of_cons; naive_solver).
      apply mget_mset_ne; try lia. by destruct p.
Qed.

(** ** Adjacency counts *)

Lemma foldl_count {X} (f : Z → X → Z) (P : X → Prop) `{!∀ x, Decision (P x)} l a :
  (∀ a x, x ∈ l → f a x = if decide (P x) then a + 1 else a) →
  foldl f a l = a + Z.of_nat (length (filter P l)).
Proof.
  revert a. induction l as [|x l IH]; intros a Hf; simpl; [lia|].
  rewrite IH by (intros; apply Hf; by right).
  rewrite Hf by left. rewrite filter_cons. destruct (decide (P x)); simpl; lia.
Qed.

Lemma foldl_skip {S X} (f : S → X → S) (l1 l2 : list X) (x : X) (s : S) :
  (∀ s, f s x = s) → foldl f s (l1 ++ x :: l2) = foldl f s (l1 ++ l2).
Proof. intros Hx. rewrite !foldl_app. simpl. by rewrite Hx. Qed.

Lemma count_adjacent_spec nrows ncols b r c :
  count_adjacent nrows ncols b r c = mine_neighbors nrows ncols b r c.
Proof.
  unfold count_adjacent, mine_neighbors.
  rewrite (foldl_nest (fun mine_count dr dc =>
    if (dr =? 0) && (dc =? 0) then mine_count
    else if valid_position nrows ncols (r + dr) (c + dc)
         then if mget 0 b (r + dr) (c + dc) =? -1 then mine_count + 1 else mine_count
         else mine_count)).
  change (list_prod [-1; 0; 1] [-1; 0; 1]) with ((take 4 offsets ++ (0, 0) :: drop 4 offsets)%list).
  rewrite foldl_skip by done.
  change (take 4 offsets ++ drop 4 offsets) with offsets.
  rewrite (foldl_count _ (fun d => valid_position nrows ncols (r + d.1) (c + d.2) = true
                                  ∧ is_mine b (r + d.1, c + d.2))); [lia|].
  intros a d Hd. unfold is_mine.
  assert ((d.1 =? 0) && (d.2 =? 0) = false) as ->.
  { unfold offsets in Hd. set_unfold. destruct_or!; subst; done. }
  destruct (valid_position _ _ _ _); [|by rewrite decide_False by naive_solver].
  simpl. destruct (Z.eqb_spec (mget 0 b (r + d.1) (c + d.2)) (-1)).
  - by rewrite decide_True.
  - by rewrite decide_False by naive_solver.
Qed.

Lemma mine_neighbors_nonneg nrows ncols b r c : 0 ≤ mine_neighbors nrows ncols b r c.
Proof. unfold mine_neighbors. lia. Qed.

Lemma mine_neighbors_same_mines nrows ncols b b' r c :
  same_mines nrows ncols b b' →
  mine_neighbors nrows ncols b r c = mine_neighbors nrows ncols b' r c.
Proof.
  intros Hs. unfold mine_neighbors. do 2 f_equal.
  apply list_filter_iff. intros d. specialize (Hs (r + d.1, c + d.2)). naive_solver.
Qed.

Lemma calc_cell_wf nrows ncols b r c :
  wf_matrix nrows ncols b → wf_matrix nrows ncols (calc_cell nrows ncols b r c).
Proof. intros Hb. unfold calc_cell. case_match; [done|by apply wf_mset]. Qed.

Lemma calc_cell_self nrows ncols b r c :
  wf_matrix nrows ncols b → valid_position nrows ncols r c = true →
  ¬ is_mine b (r, c) →
  mget 0 (calc_cell nrows ncols b r c) r c = mine_neighbors nrows ncols b r c.
Proof.
  intros Hb Hv Hm. unfold calc_cell, is_mine in *. simpl in Hm.
  destruct (Z.eqb_spec (mget 0 b r c) (-1)); [done|].
  erewrite mget_mset_eq by done. apply count_adjacent_spec.
Qed.

Lemma calc_cell_other nrows ncols b r c r' c' :
  valid_position nrows ncols r c = true → valid_position nrows ncols r' c' = true →
  (r, c) ≠ (r', c') →
  mget 0 (calc_cell nrows ncols b r c) r' c' = mget 0 b r' c'.
Proof.
  intros Hv%valid_position_spec Hv'%valid_position_spec Hne. unfold calc_cell.
  case_match; [done|]. apply mget_mset_ne; lia || done.
Qed.

Lemma calc_cell_same_mines nrows ncols b r c :
  wf_matrix nrows ncols b → valid_position nrows ncols r c = true →
  same_mines nrows ncols b (calc_cell nrows ncols b r c).
Proof.
  intros Hb Hv [r' c'] Hv'. simpl in Hv'.
  destruct (decide ((r, c) = (r', c'))) as [[= <- <-]|Hne].
  - unfold is_mine. simpl. destruct (decide (mget 0 b r c = -1)) as [Hm|Hm].
    + unfold calc_cell. by rewrite Hm.
    + rewrite calc_cell_self by done.
      pose proof (mine_neighbors_nonneg nrows ncols b r c). lia.
  - unfold is_mine. simpl. by rewrite calc_cell_other.
Qed.

Lemma same_mines_trans nrows ncols b1 b2 b3 :
  same_mines nrows ncols b1 b2 → same_mines nrows ncols b2 b3 →
  same_mines nrows ncols b1 b3.
Proof. intros H12 H23 p Hp. by rewrite (H12 p Hp), (H23 p Hp). Qed.

Lemma same_mines_sym nrows ncols b1 b2 :
  same_mines nrows ncols b1 b2 → same_mines nrows ncols b2 b1.
Proof. intros H12 p Hp. by rewrite (H12 p Hp). Qed.

(** The loop invariant of [_calculate_numbers], over the cells visited. *)
Lemma calc_fold_spec nrows ncols b0 l b :
  wf_matrix nrows ncols b → same_mines nrows ncols b0 b →
  (∀ p, p ∈ l → valid_position nrows ncols p.1 p.2 = true) →
  let b' := foldl (fun b p => calc_cell nrows ncols b p.1 p.2) b l in
  wf_matrix nrows ncols b' ∧ same_mines nrows ncols b0 b'
  ∧ ∀ p, valid_position nrows ncols p.1 p.2 = true → ¬ is_mine b0 p →
         p ∈ l ∨ mget 0 b p.1 p.2 = mine_neighbors nrows ncols b0 p.1 p.2 →
         mget 0 b' p.1 p.2 = mine_neighbors nrows ncols b0 p.1 p.2.
Proof.
  revert b. induction l as [|q l IH]; intros b Hb Hs Hl; cbn [foldl].
  { split_and!; [done..|]. intros p _ _ [[]%elem_of_nil|]; done. }
  assert (Hq : valid_position nrows ncols q.1 q.2 = true) by (apply Hl; left).
  destruct (IH (calc_cell nrows ncols b q.1 q.2)) as (Hwf & Hsame & Hnum).
  { by apply calc_cell_wf. }
  { eapply same_mines_trans; [done|]. by apply calc_cell_same_mines. }
  { intros; apply Hl; by right. }
  split_and!; [done..|]. intros p Hp Hm Hcase. apply Hnum; [done..|].
  destruct (decide (q = p)) as [->|Hne].
  - right. destruct p as [r c]; simpl in *. rewrite calc_cell_self; [|done..|].
    + by apply mine_neighbors_same_mines, same_mines_sym.
    + by rewrite <- (Hs (r, c)).
  - destruct Hcase as [[->|Hin]%elem_of_cons|Hcase]; [done|by left|right].
    destruct p as [r c], q as [r' c']; simpl in *. by rewrite calc_cell_other.
Qed.

Lemma calculate_on_spec nrows ncols b :
  wf_matrix nrows ncols b →
  wf_matrix nrows ncols (calculate_on nrows ncols b)
  ∧ same_mines nrows ncols b (calculate_on nrows ncols b)
  ∧ numbers_ok nrows ncols (calculate_on nrows ncols b).
Proof.
  intros Hb. unfold calculate_on.
  rewrite (foldl_nest (fun b r c => calc_cell nrows ncols b r c)).
  destruct (calc_fold_spec nrows ncols b (all_cells nrows ncols) b)
    as (Hwf & Hsame & Hnum); [done|done|by intros p ?%elem_of_all_cells|].
  unfold all_cells in *. split_and!; [done..|]. intros r c Hv Hm.
  specialize (Hnum (r, c) Hv). simpl in Hnum. rewrite Hnum.
  - by apply mine_neighbors_same_mines.
  - by rewrite (Hsame (r, c)).
  - left. by apply elem_of_all_cells.
Qed.

(** ** Construction *)

Lemma DIFFICULTIES_lookup d s :
  DIFFICULTIES !! d = Some s →
  (d = "easy" ∧ s = Cfg.mk 9 9 10 1.5%float)
  ∨ (d = "medium" ∧ s = Cfg.mk 16 16 40 2%float)
  ∨ (d = "hard" ∧ s = Cfg.mk 16 30 99 2.5%float).
Proof.
  unfold DIFFICULTIES. simpl. rewrite !lookup_insert_Some, lookup_empty.
  intros [[<- <-]|[_ [[<- <-]|[_ [[<- <-]|[_ [=]]]]]]]; auto.
Qed.

Lemma DIFFICULTIES_valid d s : DIFFICULTIES !! d = Some s → valid_tier s.
Proof.
  intros [[_ ->]|[[_ ->]|[_ ->]]]%DIFFICULTIES_lookup; unfold valid_tier; simpl; lia.
Qed.

Lemma is_sample_NoDup {A} (pop s : list A) k :
  NoDup pop → is_sample pop k s → NoDup s.
Proof.
  intros Hpop [_ Hsub]. apply submseteq_Permutation in Hsub as [rest Hperm].
  rewrite Hperm in Hpop. by apply NoDup_app in Hpop as [? _].
Qed.

Lemma is_sample_elem_of {A} (pop s : list A) k x :
  is_sample pop k s → x ∈ s → x ∈ pop.
Proof. intros [_ Hsub] Hx. by eapply elem_of_submseteq. Qed.

Lemma new_game_wf d s ps : wf_game (new_game d s ps).
Proof.
  unfold wf_game, new_game. simpl. split_and!; try apply wf_make_matrix.
  apply calculate_on_spec, wf_place_on, wf_make_matrix.
Qed.

Lemma new_game_is_mine d s ps p :
  (∀ q, q ∈ ps → valid_position (Cfg.rows s) (Cfg.cols s) q.1 q.2 = true) →
  valid_position (Cfg.rows s) (Cfg.cols s) p.1 p.2 = true →
  is_mine (board (new_game d s ps)) p ↔ p ∈ ps.
Proof.
  intros Hps Hp. unfold new_game. simpl.
  pose proof (wf_make_matrix (Cfg.rows s) (Cfg.cols s) 0) as Hz.
  destruct (calculate_on_spec (Cfg.rows s) (Cfg.cols s)
              (place_on (make_matrix (Cfg.rows s) (Cfg.cols s) 0) ps))
    as (_ & Hsame & _); [by apply wf_place_on|].
  rewrite <- (Hsame p Hp). unfold is_mine.
  erewrite mget_place_on by done. destruct p as [r c]; simpl in *.
  destruct (decide ((r, c) ∈ ps)); [done|].
  rewrite mget_make_matrix by done. split; [done|by intros].
Qed.

Lemma new_game_mine_cells d s ps :
  is_sample (all_cells (Cfg.rows s) (Cfg.cols s)) (Cfg.mines s) ps →
  mine_cells (new_game d s ps) ≡ₚ ps.
Proof.
  intros Hs. apply NoDup_Permutation.
  - apply NoDup_filter, NoDup_all_cells.
  - eapply is_sample_NoDup; [apply NoDup_all_cells|done].
  - intros p. unfold mine_cells. rewrite list_elem_of_filter.
    change (rows (new_game d s ps)) with (Cfg.rows s).
    change (cols (new_game d s ps)) with (Cfg.cols s).
    rewrite elem_of_all_cells.
    assert (Hps : ∀ q, q ∈ ps →
              valid_position (Cfg.rows s) (Cfg.cols s) q.1 q.2 = true).
    { intros q Hq. by eapply elem_of_all_cells, is_sample_elem_of. }
    split.
    + intros [Hm Hv]. by apply (new_game_is_mine d s ps p Hps Hv).
    + intros Hp. split; [|by apply Hps]. apply new_game_is_mine; auto.
Qed.

Lemma mget_make_matrix_default {A} (d : A) nrows ncols r c :
  mget d (make_matrix nrows ncols d) r c = d.
Proof.
  unfold mget, make_matrix.
  destruct (replicate _ _ !! Z.to_nat r) as [row|] eqn:E; [|done].
  apply lookup_replicate in E as [-> _].
  destruct (replicate _ _ !! Z.to_nat c) as [x|] eqn:E; [|done].
  by apply lookup_replicate in E as [-> _].
Qed.

(** C9.  For every tier of [DIFFICULTIES] and every sample of mine positions
    [random.sample] can return, the constructor yields a game in which
    exactly [mines] cells are mines, namely the distinct sampled positions;
    every cell that is not a mine holds the number of its in-bounds
    neighbours (at most eight) that are mines; no cell is revealed, no cell
    is flagged, the first click is still pending and the game is not over. *)
Theorem construction_correct d s ps :
  DIFFICULTIES !! d = Some s →
  is_sample (all_cells (Cfg.rows s) (Cfg.cols s)) (Cfg.mines s) ps →
  ∃ g, MinesweeperGame_init d ps = inr g
     ∧ rows g = Cfg.rows s ∧ cols g = Cfg.cols s ∧ mines g = Cfg.mines s
     ∧ Z.of_nat (length (mine_cells g)) = mines g
     ∧ NoDup (mine_cells g)
     ∧ mine_cells g ≡ₚ ps
     ∧ numbers_ok (rows g) (cols g) (board g)
     ∧ (∀ r c, mget false (revealed g) r c = false
               ∧ mget false (flagged g) r c = false)
     ∧ first_click g = true
     ∧ terminal_of g = NotOver.
Proof.
  intros Hd Hs. exists (new_game d s ps).
  unfold MinesweeperGame_init. rewrite Hd.
  pose proof (new_game_mine_cells d s ps Hs) as Hperm.
  split_and!; try done.
  - rewrite Hperm. apply Hs.
  - apply NoDup_filter, NoDup_all_cells.
  - apply calculate_on_spec, wf_place_on, wf_make_matrix.
  - intros r c. unfold new_game. simpl. by rewrite !mget_make_matrix_default.
Qed.

Lemma construction_correct_witness :
  ∃ g, MinesweeperGame_init "easy" top_mines = inr g
     ∧ Z.of_nat (length (mine_cells g)) = 10
     ∧ numbers_ok 9 9 (board g).
Proof.
  destruct (construction_correct "easy" easy top_mines) as (g & Hg & H).
  - reflexivity.
  - split; [reflexivity|]. apply (bool_decide_unpack _). vm_compute. exact I.
  - exists g. split; [exact Hg|].
    destruct H as (Hr & Hc & Hm & Hcount & _ & _ & Hnum & _).
    rewrite Hr, Hc in Hnum. rewrite Hm in Hcount. split; [exact Hcount|exact Hnum].
Defined.

(** ** The ledger *)

Section float_facts.
Local Open Scope float_scope.

Lemma Prim2SF_inj x y : Prim2SF x = Prim2SF y → x = y.
Proof. intros H. by rewrite <- (SF2Prim_Prim2SF x), H, SF2Prim_Prim2SF. Qed.

Lemma float_zero_cases x s : Prim2SF x = S754_zero s → x = if s then -0 else 0.
Proof. intros H. apply Prim2SF_inj. rewrite H. by destruct s. Qed.

(** Python's [x == 0] holds of the two zeros only. *)
Lemma float_eqb_zero x : (x =? 0) = true → x = 0 ∨ x = -0.
Proof.
  rewrite FloatAxioms.eqb_spec. destruct (Prim2SF x) as [s|s| |s m e] eqn:E.
  - intros _. apply float_zero_cases in E. destruct s; auto.
  - by destruct s.
  - done.
  - by destruct s.
Qed.

Lemma float_add_zero x z : z = 0 ∨ z = -0 → same_amount (x + z) x.
Proof.
  intros Hz. destruct (Prim2SF x) as [s|s| |s m e] eqn:E.
  - apply float_zero_cases in E. subst x. right. by destruct Hz as [->| ->], s.
  - left. apply Prim2SF_inj. rewrite add_spec, E. by destruct Hz as [->| ->], s.
  - left. apply Prim2SF_inj. rewrite add_spec, E. by destruct Hz as [->| ->].
  - left. apply Prim2SF_inj. rewrite add_spec, E. by destruct Hz as [->| ->].
Qed.

Lemma float_sub_zero x z : z = 0 ∨ z = -0 → same_amount (x - z) x.
Proof.
  intros Hz. destruct (Prim2SF x) as [s|s| |s m e] eqn:E.
  - apply float_zero_cases in E. subst x. right. by destruct Hz as [->| ->], s.
  - left. apply Prim2SF_inj. rewrite sub_spec, E. by destruct Hz as [->| ->], s.
  - left. apply Prim2SF_inj. rewrite sub_spec, E. by destruct Hz as [->| ->].
  - left. apply Prim2SF_inj. rewrite sub_spec, E. by destruct Hz as [->| ->].
Qed.

(** The payout on a zero stake is a zero, for each of the three tiers. *)
Lemma zero_payout d s bet :
  DIFFICULTIES !! d = Some s → bet = 0 ∨ bet = -0 →
  let payout := bet * Cfg.multiplier s in
  (payout = 0 ∨ payout = -0) ∧ (payout =? 0) = true ∧ (payout - bet =? 0) = true.
Proof.
  intros [[_ ->]|[[_ ->]|[_ ->]]]%DIFFICULTIES_lookup [->| ->]; simpl;
    (split; [(by left) || by right|done]).
Qed.
End float_facts.

(** [place_bet] accepts any difficulty string; [win_game] then raises
    [KeyError] when it is not a key of [DIFFICULTIES]. *)
Example win_game_unknown_tier :
  win_game (place_bet GamblingSystem_init 10 "expert").1 = inl (KeyError "expert").
Proof. reflexivity. Qed.

(** The bet of the examples is what [place_bet] records. *)
Example place_bet_10_easy :
  place_bet GamblingSystem_init 10 "easy" = (bet_10_easy, (true, BetPlaced 10 "easy")).
Proof. reflexivity. Qed.

(** C6.  With a stake and a recorded tier that is a key of [DIFFICULTIES],
    [win_game] computes the payout as stake times the multiplier of that
    tier, adds the whole payout to the bankroll, computes the profit as
    payout minus stake, resets the stake to 0.0 and returns payout, profit
    and the new bankroll. *)
Theorem win_game_settles gs s :
  (0 <? current_bet gs)%float = true →
  DIFFICULTIES !! current_difficulty gs = Some s →
  ∃ gs' res,
    win_game gs = inr (gs', res)
    ∧ payout res = (current_bet gs * Cfg.multiplier s)%float
    ∧ bankroll gs' = (bankroll gs + payout res)%float
    ∧ profit res = (payout res - current_bet gs)%float
    ∧ current_bet gs' = 0%float
    ∧ win_new_bankroll res = bankroll gs'
    ∧ current_difficulty gs' = current_difficulty gs.
Proof.
  intros _ Hs. unfold win_game. rewrite Hs. by eexists _, _.
Qed.

Lemma win_game_settles_witness :
  ∃ gs' res,
    win_game bet_10_easy = inr (gs', res)
    ∧ payout res = 15%float
    ∧ bankroll gs' = (100 + payout res)%float.
Proof.
  destruct (win_game_settles bet_10_easy easy) as (gs' & res & H).
  - reflexivity.
  - reflexivity.
  - exists gs', res. destruct H as (Hw & Hp & Hb & _).
    split; [exact Hw|]. split; [rewrite Hp; reflexivity|exact Hb].
Defined.

(** C2, as the specification states it, fails: with bankroll 100 and a stake
    of 10 on the easy tier, [win_game] returns payout 15.0 and profit 5.0
    but the new bankroll is 115.0, not 105.0; the bankroll has grown by the
    payout, not by stake * (multiplier - 1). *)
Lemma win_game_gain_counterexample :
  ∃ gs' res,
    win_game bet_10_easy = inr (gs', res)
    ∧ payout res = 15%float ∧ profit res = 5%float
    ∧ win_new_bankroll res = 115%float
    ∧ (win_new_bankroll res =? 105)%float = false
    ∧ (bankroll gs' =? bankroll bet_10_easy + current_bet bet_10_easy * (1.5 - 1))%float
      = false.
Proof. eexists _, _. split; [reflexivity|]. by vm_compute. Qed.

(** C2, amended.  With a stake and a recorded tier that is a key of
    [DIFFICULTIES], [win_game] sets the bankroll to bankroll + stake *
    multiplier: the bankroll grows by the whole payout, the stake having
    never been debited.  With bankroll 100 and a stake of 10 on the easy
    tier it returns payout 15.0, profit 5.0 and new bankroll 115.0, a
    strict increase. *)
Theorem win_game_adds_payout gs s :
  (0 <? current_bet gs)%float = true →
  DIFFICULTIES !! current_difficulty gs = Some s →
  (∃ gs' res,
     win_game gs = inr (gs', res)
     ∧ bankroll gs' = (bankroll gs + current_bet gs * Cfg.multiplier s)%float
     ∧ win_new_bankroll res = bankroll gs')
  ∧ win_game bet_10_easy
    = inr (mkLedger 115%float 0%float "easy", mkWin 15%float 5%float 115%float)
  ∧ (bankroll bet_10_easy <? 115)%float = true.
Proof.
  intros _ Hs. split; [|done]. unfold win_game. rewrite Hs. by eexists _, _.
Qed.

Lemma win_game_adds_payout_witness :
  ∃ gs' res,
    win_game bet_10_easy = inr (gs', res)
    ∧ bankroll gs' = (100 + 10 * 1.5)%float.
Proof.
  destruct (win_game_adds_payout bet_10_easy easy) as [(gs' & res & H) _].
  - reflexivity.
  - reflexivity.
  - exists gs', res. destruct H as (Hw & Hb & _). split; [exact Hw|exact Hb].
Defined.

(** The increase need not be strict in floating point: a payout of 1.5 is
    absorbed by a bankroll of 1e17. *)
Example win_game_absorbed :
  win_game (mkLedger 1e17%float 1%float "easy")
  = inr (mkLedger 1e17%float 0%float "easy", mkWin 1.5%float 0.5%float 1e17%float).
Proof. reflexivity. Qed.

(** C3, as the specification states it, fails: on the initial ledger, whose
    stake is 0.0, neither [win_game] nor [lose_game] raises; both return
    normally, with a payout (loss) of zero. *)
Lemma settle_without_bet_counterexample :
  (current_bet GamblingSystem_init =? 0)%float = true
  ∧ win_game GamblingSystem_init
    = inr (GamblingSystem_init, mkWin 0%float 0%float 100%float)
  ∧ (∀ e, win_game GamblingSystem_init ≠ inl e)
  ∧ lose_game GamblingSystem_init = (GamblingSystem_init, mkLose 0%float 100%float).
Proof. split_and!; try reflexivity. intros e. discriminate. Qed.

(** C3, amended.  Calling [win_game] (with a recorded tier that is a key of
    [DIFFICULTIES]) or [lose_game] when the stake equals 0 raises nothing:
    the call completes and returns normally, with a payout, profit and loss
    of zero, and the bankroll is the same amount as before. *)
Theorem settle_without_bet gs s :
  (current_bet gs =? 0)%float = true →
  DIFFICULTIES !! current_difficulty gs = Some s →
  (∃ gs' res,
     win_game gs = inr (gs', res)
     ∧ (payout res =? 0)%float = true
     ∧ (profit res =? 0)%float = true
     ∧ same_amount (bankroll gs') (bankroll gs)
     ∧ win_new_bankroll res = bankroll gs')
  ∧ (loss (lose_game gs).2 =? 0)%float = true
  ∧ same_amount (bankroll (lose_game gs).1) (bankroll gs)
  ∧ lose_new_bankroll (lose_game gs).2 = bankroll (lose_game gs).1.
Proof.
  intros Hz%float_eqb_zero Hs.
  destruct (zero_payout _ s (current_bet gs) Hs Hz) as (Hp & Hp0 & Hprofit).
  split_and!.
  - unfold win_game. rewrite Hs. eexists _, _. split; [done|]. simpl.
    split_and!; try done. by apply float_add_zero.
  - simpl. by destruct Hz as [->| ->].
  - simpl. by apply float_sub_zero.
  - done.
Qed.

Lemma settle_without_bet_witness :
  same_amount (bankroll (lose_game GamblingSystem_init).1) 100%float.
Proof.
  destruct (settle_without_bet GamblingSystem_init easy) as (_ & _ & H & _).
  - reflexivity.
  - reflexivity.
  - exact H.
Defined.

(** C7.  [place_bet] always returns a pair, never raises: it rejects with the
    bounds message exactly when the amount is below 1.0 or above 1000.0, and
    otherwise with "Insufficient funds" exactly when the amount exceeds the
    bankroll; a rejection leaves the ledger as it was; otherwise it records
    the amount and the difficulty.  The bankroll is unchanged in every
    branch.  Neither check subsumes the other: 2000 on a bankroll of 5000
    fails the bounds only, 50 on a bankroll of 10 fails the funds only. *)
Theorem place_bet_spec gs amount d :
  let out_of_bounds := (amount <? 1)%float || (1000 <? amount)%float in
  let insufficient := (bankroll gs <? amount)%float in
  let '(gs', (ok, msg)) := place_bet gs amount d in
  bankroll gs' = bankroll gs
  ∧ (ok = false ↔ out_of_bounds = true ∨ insufficient = true)
  ∧ (msg = BetOutOfBounds 1 1000 ↔ out_of_bounds = true)
  ∧ (msg = InsufficientFunds ↔ out_of_bounds = false ∧ insufficient = true)
  ∧ (ok = false → gs' = gs)
  ∧ (ok = true →
     current_bet gs' = amount ∧ current_difficulty gs' = d
     ∧ msg = BetPlaced amount d)
  ∧ place_bet (mkLedger 5000 0 d) 2000 d
    = (mkLedger 5000 0 d, (false, BetOutOfBounds 1 1000))
  ∧ place_bet (mkLedger 10 0 d) 50 d = (mkLedger 10 0 d, (false, InsufficientFunds)).
Proof.
  unfold place_bet, MIN_BET, MAX_BET.
  destruct ((amount <? 1)%float || (1000 <? amount)%float);
    destruct (bankroll gs <? amount)%float; simpl;
    split_and!; try done;
    try (split; (done || tauto || (by intros [? ?]) || by intros [?|?])).
Qed.

(** The bets the specification tests. *)
Example place_bet_examples :
  (place_bet GamblingSystem_init 0.5 "easy").2.1 = false
  ∧ (place_bet GamblingSystem_init 1001 "easy").2.1 = false
  ∧ place_bet (mkLedger 10 0 "easy") 50 "easy"
    = (mkLedger 10 0 "easy", (false, InsufficientFunds))
  ∧ place_bet GamblingSystem_init 50 "easy"
    = (mkLedger 100 50 "easy", (true, BetPlaced 50 "easy")).
Proof. by vm_compute. Qed.

(** A NaN amount passes both checks, every comparison with it being false. *)
Example place_bet_nan :
  place_bet GamblingSystem_init nan "easy"
  = (mkLedger 100 nan "easy", (true, BetPlaced nan "easy")).
Proof. reflexivity. Qed.

(** C8.  With a stake, [lose_game] takes exactly the stake off the bankroll,
    resets the stake to 0.0 and returns the loss and the new bankroll; the
    result is not clamped at zero: a stake of 10 on a bankroll of 5 leaves
    -5.0. *)
Theorem lose_game_settles gs :
  (0 <? current_bet gs)%float = true →
  lose_game gs
  = (mkLedger (bankroll gs - current_bet gs) 0 (current_difficulty gs),
     mkLose (current_bet gs) (bankroll gs - current_bet gs))
  ∧ lose_game (mkLedger 5 10 "easy") = (mkLedger (-5) 0 "easy", mkLose 10 (-5))
  ∧ (-5 <? 0)%float = true.
Proof. intros _. by split_and!. Qed.

Lemma lose_game_settles_witness :
  lose_game bet_10_easy = (mkLedger (100 - 10) 0 "easy", mkLose 10 (100 - 10)).
Proof.
  destruct (lose_game_settles bet_10_easy) as [H _].
  - reflexivity.
  - exact H.
Defined.

(** The end-to-end loss of the specification: loss 10.0, new bankroll 90.0. *)
Example lose_game_10_easy :
  lose_game bet_10_easy = (mkLedger 90 0 "easy", mkLose 10 90).
Proof. reflexivity. Qed.

(** ** Flood fill *)

Lemma foldM_app {S X} (f : S → X → option S) (l k : list X) (s : S) :
  foldM f s (l ++ k) = match foldM f s l with Some s' => foldM f s' k | None => None end.
Proof.
  revert s. induction l as [|x l IH]; intros s; simpl; [done|].
  destruct (f s x); [apply IH|done].
Qed.

Lemma foldM_nest {S X Y} (f : S → X → Y → option S) (l : list X) (k : list Y) (s : S) :
  foldM (fun s x => foldM (fun s y => f s x y) s k) s l
  = foldM (fun s p => f s p.1 p.2) s (list_prod l k).
Proof.
  revert s. induction l as [|x l IH]; intros s; simpl; [done|].
  rewrite foldM_app.
  assert (Hrow : ∀ s, foldM (fun s y => f s x y) s k
                      = foldM (fun s p => f s p.1 p.2) s (map (fun y => (x, y)) k)).
  { clear. induction k as [|y k IHk]; intros s; simpl; [done|].
    destruct (f s x y); [apply IHk|done]. }
  rewrite <- Hrow. destruct (foldM _ s k); [apply IH|done].
Qed.

Lemma foldM_skip {S X} (f : S → X → option S) (l1 l2 : list X) (x : X) (s : S) :
  (∀ s, f s x = Some s) → foldM f s (l1 ++ x :: l2) = foldM f s (l1 ++ l2).
Proof.
  intros Hx. rewrite !foldM_app. destruct (foldM f s l1); [|done].
  simpl. by rewrite Hx.
Qed.

Lemma foldM_ext {S X} (f f' : S → X → option S) (l : list X) (s : S) :
  (∀ s x, x ∈ l → f s x = f' s x) → foldM f s l = foldM f' s l.
Proof.
  revert s. induction l as [|x l IH]; intros s Hf; simpl; [done|].
  rewrite Hf by left. destruct (f' s x); [|done]. apply IH. intros; apply Hf; by right.
Qed.

(** The body of [_flood_fill], with the two loops over [dr] and [dc] read as
    one loop over the eight neighbours. *)
Lemma flood_fill_unfold fuel g row col :
  _flood_fill (S fuel) g row col
  = if negb (_is_valid_position g row col) || mget false (revealed g) row col
    then Some g
    else
      let g1 := set_revealed g (mset (revealed g) row col true) in
      if mget 0 (board g) row col =? 0
      then foldM (fun g d => _flood_fill fuel g (row + d.1) (col + d.2)) g1 offsets
      else Some g1.
Proof.
  cbn [_flood_fill]. destruct (_ || _); [done|]. cbv zeta.
  change (board (set_revealed g ?m)) with (board g).
  destruct (_ =? 0); [|done].
  rewrite (foldM_nest (fun g dr dc =>
    if (dr =? 0) && (dc =? 0) then Some g
    else _flood_fill fuel g (row + dr) (col + dc))).
  change (list_prod [-1; 0; 1] [-1; 0; 1]) with (take 4 offsets ++ (0, 0) :: drop 4 offsets).
  rewrite foldM_skip by done.
  change (take 4 offsets ++ drop 4 offsets) with offsets.
  apply foldM_ext. intros g' d Hd.
  assert ((d.1 =? 0) && (d.2 =? 0) = false) as ->; [|done].
  unfold offsets in Hd. set_unfold. destruct_or!; subst; done.
Qed.

Lemma set_revealed_id g : set_revealed g (revealed g) = g.
Proof. by destruct g. Qed.

Lemma extends_revealed_refl g :
  wf_matrix (rows g) (cols g) (revealed g) → extends_revealed g g.
Proof.
  intros Hwf. split_and!; [by rewrite set_revealed_id|done|done|by left].
Qed.

Lemma extends_revealed_trans g1 g2 g3 :
  extends_revealed g1 g2 → extends_revealed g2 g3 → extends_revealed g1 g3.
Proof.
  intros (E12 & W12 & M12 & N12) (E23 & W23 & M23 & N23).
  rewrite E12 in E23, W23, M23, N23. simpl in *.
  split_and!; [done|done|by auto|].
  intros p Hp H3. destruct (N23 p Hp H3) as [H2|Hm]; [|by right].
  by apply N12.
Qed.

Lemma length_filter_mono {A} (P Q : A → Prop)
    `{!∀ x, Decision (P x)} `{!∀ x, Decision (Q x)} (l : list A) :
  (∀ x, x ∈ l → P x → Q x) → (length (filter P l) ≤ length (filter Q l))%nat.
Proof.
  intros HPQ. induction l as [|x l IH]; [done|].
  rewrite !filter_cons.
  assert (IH' := IH (fun y Hy => HPQ y (list_elem_of_further _ _ _ Hy))).
  destruct (decide (P x)) as [HP|HP].
  - rewrite decide_True by (apply HPQ; [left|done]). simpl. lia.
  - destruct (decide (Q x)); simpl; lia.
Qed.

Lemma length_filter_strict {A} (P Q : A → Prop)
    `{!∀ x, Decision (P x)} `{!∀ x, Decision (Q x)} (l : list A) (x0 : A) :
  (∀ x, x ∈ l → P x → Q x) → x0 ∈ l → Q x0 → ¬ P x0 →
  (length (filter P l) < length (filter Q l))%nat.
Proof.
  intros HPQ Hin HQ HnP. induction l as [|x l IH]; [by apply elem_of_nil in Hin|].
  rewrite !filter_cons.
  assert (Hl : ∀ y, y ∈ l → P y → Q y) by (intros; apply HPQ; [by right|done]).
  pose proof (length_filter_mono P Q l Hl) as Hmono.
  apply elem_of_cons in Hin as [<-|Hin].
  - rewrite decide_False, decide_True by done. simpl. lia.
  - specialize (IH Hl Hin). destruct (decide (P x)) as [HP|HP].
    + rewrite decide_True by (apply HPQ; [left|done]). simpl. lia.
    + destruct (decide (Q x)); simpl; lia.
Qed.

Lemma extends_revealed_hidden g g' :
  extends_revealed g g' → (length (hidden_cells g') ≤ length (hidden_cells g))%nat.
Proof.
  intros (E & _ & M & _). unfold hidden_cells. rewrite E. simpl.
  apply length_filter_mono. intros p Hp%elem_of_all_cells Hh.
  destruct (mget false (revealed g) p.1 p.2) eqn:Hr; [|done].
  rewrite M in Hh; done.
Qed.

(** The first step of [_flood_fill]: one more cell revealed. *)
Lemma reveal_one g row col :
  wf_matrix (rows g) (cols g) (revealed g) →
  _is_valid_position g row col = true →
  mget false (revealed g) row col = false →
  ¬ is_mine (board g) (row, col) →
  let g1 := set_revealed g (mset (revealed g) row col true) in
  extends_revealed g g1
  ∧ (length (hidden_cells g1) < length (hidden_cells g))%nat
  ∧ mget false (revealed g1) row col = true.
Proof.
  intros Hwf Hv Hr Hm g1. unfold _is_valid_position in Hv.
  assert (Hself : mget false (revealed g1) row col = true).
  { simpl. by erewrite mget_mset_eq. }
  assert (Hother : ∀ p, valid_position (rows g) (cols g) p.1 p.2 = true →
            p ≠ (row, col) →
            mget false (revealed g1) p.1 p.2 = mget false (revealed g) p.1 p.2).
  { intros [r c] Hp%valid_position_spec Hne. simpl in *.
    apply valid_position_spec in Hv. apply mget_mset_ne; lia || done. }
  split_and!; [split_and!| |done].
  - done.
  - by apply wf_mset.
  - intros p Hp Hrev. destruct (decide (p = (row, col))) as [->|Hne]; [done|].
    by rewrite Hother.
  - intros p Hp Hrev. destruct (decide (p = (row, col))) as [->|Hne]; [by right|].
    left. by rewrite <- Hother.
  - unfold hidden_cells. change (rows g1) with (rows g). change (cols g1) with (cols g).
    apply (length_filter_strict _ _ _ (row, col)).
    + intros p Hp%elem_of_all_cells Hh.
      destruct (decide (p = (row, col))) as [->|Hne]; [done|]. by rewrite <- Hother.
    + by apply elem_of_all_cells.
    + done.
    + simpl. unfold g1 in Hself. simpl in Hself. by rewrite Hself.
Qed.

(** A cell that shows 0 has no mine among its neighbours. *)
Lemma zero_no_mine_neighbors nrows ncols b r c d :
  numbers_ok nrows ncols b → valid_position nrows ncols r c = true →
  mget 0 b r c = 0 → d ∈ offsets →
  valid_position nrows ncols (r + d.1) (c + d.2) = true →
  ¬ is_mine b (r + d.1, c + d.2).
Proof.
  intros Hok Hv H0 Hd Hvd Hm.
  assert (Hnm : ¬ is_mine b (r, c)) by (unfold is_mine; simpl; lia).
  specialize (Hok r c Hv Hnm). rewrite H0 in Hok. unfold mine_neighbors in Hok.
  assert (Hin : d ∈ filter
    (fun d => valid_position nrows ncols (r + d.1) (c + d.2) = true
              ∧ is_mine b (r + d.1, c + d.2)) offsets).
  { by apply list_elem_of_filter. }
  destruct (filter _ offsets); [by apply elem_of_nil in Hin|simpl in Hok; lia].
Qed.

Lemma extends_revealed_frame g g' :
  extends_revealed g g' →
  rows g' = rows g ∧ cols g' = cols g ∧ board g' = board g.
Proof. intros (-> & _). done. Qed.

(** [_flood_fill] returns whenever its fuel exceeds the number of hidden
    cells, and then it has only revealed more cells, none of them a mine
    provided the cell it starts from is none. *)
Lemma flood_fill_spec fuel g row col :
  wf_matrix (rows g) (cols g) (revealed g) →
  numbers_ok (rows g) (cols g) (board g) →
  (_is_valid_position g row col = true → ¬ is_mine (board g) (row, col)) →
  (length (hidden_cells g) < fuel)%nat →
  ∃ g', _flood_fill fuel g row col = Some g' ∧ extends_revealed g g'.
Proof.
  revert g row col. induction fuel as [|fuel IH]; intros g row col Hwf Hok Hstart Hfuel;
    [lia|].
  rewrite flood_fill_unfold.
  destruct (_is_valid_position g row col) eqn:Hv; simpl;
    [|eexists; split; [done|by apply extends_revealed_refl]].
  destruct (mget false (revealed g) row col) eqn:Hr;
    [eexists; split; [done|by apply extends_revealed_refl]|].
  destruct (reveal_one g row col Hwf Hv Hr (Hstart eq_refl)) as (Hext1 & Hless & _).
  set (g1 := set_revealed g (mset (revealed g) row col true)) in *.
  destruct (Z.eqb_spec (mget 0 (board g) row col) 0) as [H0|H0];
    [|by eexists].
  (* the loop over the neighbours *)
  assert (Hloop : ∀ l g2, (∀ d, d ∈ l → d ∈ offsets) → extends_revealed g1 g2 →
            ∃ g', foldM (fun g d => _flood_fill fuel g (row + d.1) (col + d.2)) g2 l
                  = Some g' ∧ extends_revealed g1 g').
  { induction l as [|d l IHl]; intros g2 Hl Hext2; simpl; [by eexists|].
    destruct (extends_revealed_frame _ _ Hext2) as (Hrows & Hcols & Hboard).
    destruct (IH g2 (row + d.1) (col + d.2)) as (g3 & -> & Hext3).
    - rewrite Hrows, Hcols. apply Hext2.
    - by rewrite Hrows, Hcols, Hboard.
    - unfold _is_valid_position. rewrite Hrows, Hcols, Hboard. intros Hvd.
      eapply zero_no_mine_neighbors; eauto. apply Hl. left.
    - pose proof (extends_revealed_hidden _ _ Hext2). lia.
    - apply IHl; [intros; apply Hl; by right|].
      by eapply extends_revealed_trans. }
  destruct (Hloop offsets g1) as (g' & Hg' & Hext'); [done| |].
  { apply extends_revealed_refl. apply Hext1. }
  exists g'. split; [done|]. by eapply extends_revealed_trans.
Qed.

(** ** Counting the revealed cells *)

Lemma revealed_count_spec g : revealed_count g = Z.of_nat (length (revealed_cells g)).
Proof.
  unfold revealed_count, revealed_cells.
  rewrite (foldl_nest (fun n r c => if mget false (revealed g) r c then n + 1 else n)).
  rewrite (foldl_count _ (fun p => mget false (revealed g) p.1 p.2 = true)); [done|].
  intros a p _. by destruct (mget false (revealed g) p.1 p.2).
Qed.

Lemma filter_none {A} (P : A → Prop) `{!∀ x, Decision (P x)} (l : list A) :
  (∀ x, x ∈ l → ¬ P x) → filter P l = [].
Proof.
  intros Hl. induction l as [|x l IH]; [done|].
  rewrite filter_cons, decide_False by (apply Hl; left).
  apply IH. intros; apply Hl; by right.
Qed.

(** ** The relocation of the first-click mine *)

Lemma random_choice_elem_of {A} pick (d : A) l : l ≠ [] → random_choice pick d l ∈ l.
Proof.
  intros Hl. unfold random_choice. rewrite nth_lookup.
  assert (pick `mod` length l < length l)%nat as [x Hx]%lookup_lt_is_Some.
  { apply Nat.mod_upper_bound. by destruct l. }
  rewrite Hx. simpl. by eapply list_elem_of_lookup_2.
Qed.

Lemma elem_of_safe_spots g row col p :
  p ∈ safe_spots g row col
  ↔ valid_position (rows g) (cols g) p.1 p.2 = true
    ∧ ¬ is_mine (board g) p ∧ p ≠ (row, col).
Proof.
  unfold safe_spots. rewrite list_elem_of_filter, elem_of_all_cells.
  rewrite andb_true_iff, orb_true_iff, !negb_true_iff, !Z.eqb_neq.
  unfold is_mine. destruct p as [r c]. simpl. split.
  - intros [[Hm Hne] Hv]. split_and!; [done..|]. intros [= -> ->]. lia.
  - intros (Hv & Hm & Hne). split_and!; [done| |done].
    destruct (decide (r = row)) as [->|]; [right|by left]. by intros ->.
Qed.

(** The mines of the board in which the mine at (row, col) has been moved
    to [new]. *)
Lemma relocated_is_mine nrows ncols b row col new q :
  wf_matrix nrows ncols b →
  valid_position nrows ncols row col = true →
  valid_position nrows ncols new.1 new.2 = true →
  valid_position nrows ncols q.1 q.2 = true →
  new ≠ (row, col) →
  is_mine (calculate_on nrows ncols (mset (mset b row col 0) new.1 new.2 (-1))) q
  ↔ q = new ∨ (q ≠ (row, col) ∧ is_mine b q).
Proof.
  intros Hb Hv Hnew Hq Hne.
  destruct (calculate_on_spec nrows ncols (mset (mset b row col 0) new.1 new.2 (-1)))
    as (_ & Hsame & _); [by do 2 apply wf_mset|].
  rewrite <- (Hsame q Hq). unfold is_mine.
  apply valid_position_spec in Hv as Hv', Hnew as Hnew', Hq as Hq'.
  destruct new as [nr nc], q as [qr qc]. simpl in *.
  destruct (decide ((qr, qc) = (nr, nc))) as [[= -> ->]|Hqn].
  { erewrite mget_mset_eq; [|by apply wf_mset|done]. split; [by left|done]. }
  rewrite mget_mset_ne by (lia || done).
  destruct (decide ((qr, qc) = (row, col))) as [[= -> ->]|Hqp].
  { erewrite mget_mset_eq by done. split; [done|]. by intros [?|[? _]]. }
  rewrite mget_mset_ne by (lia || done).
  split; [by right|]. by intros [?|[_ ?]].
Qed.

Lemma ensure_safe_spec g row col pick :
  wf_matrix (rows g) (cols g) (board g) →
  _is_valid_position g row col = true →
  let g' := _ensure_safe_first_click g row col pick in
  g' = set_board g (board g')
  ∧ wf_matrix (rows g) (cols g) (board g')
  ∧ (numbers_ok (rows g) (cols g) (board g) → numbers_ok (rows g) (cols g) (board g'))
  ∧ (is_mine (board g) (row, col) → safe_spots g row col ≠ [] →
     ∃ new, new ∈ safe_spots g row col
       ∧ board g'
         = calculate_on (rows g) (cols g)
             (mset (mset (board g) row col 0) new.1 new.2 (-1))
       ∧ ∀ q, valid_position (rows g) (cols g) q.1 q.2 = true →
              is_mine (board g') q ↔ q = new ∨ (q ≠ (row, col) ∧ is_mine (board g) q)).
Proof.
  intros Hwf Hv g'. unfold g', _ensure_safe_first_click, is_mine. simpl.
  destruct (Z.eqb_spec (mget 0 (board g) row col) (-1)) as [Hm|Hm].
  2:{ split_and!; [by destruct g|done|done|done]. }
  destruct (safe_spots g row col) as [|d l] eqn:Hspots.
  { split_and!; [by destruct g|done|done|done]. }
  rewrite <- Hspots.
  set (new := random_choice pick d (safe_spots g row col)).
  assert (Hnew : new ∈ safe_spots g row col).
  { apply random_choice_elem_of. by rewrite Hspots. }
  apply elem_of_safe_spots in Hnew as Hnew'. destruct Hnew' as (Hnv & Hnm & Hne).
  simpl.
  destruct (calculate_on_spec (rows g) (cols g)
              (mset (mset (board g) row col 0) new.1 new.2 (-1)))
    as (Hwf' & _ & Hok'); [by do 2 apply wf_mset|].
  split_and!; [done..|]. intros _ _. exists new. split_and!; [done..|].
  intros q Hq. by apply relocated_is_mine.
Qed.

(** ** [reveal_cell] and [toggle_flag] keep the invariant *)

Lemma after_safety_spec g row col pick :
  game_inv g → _is_valid_position g row col = true →
  let g1 := after_safety g row col pick in
  g1 = set_board g (board g1)
  ∧ wf_matrix (rows g) (cols g) (board g1)
  ∧ numbers_ok (rows g) (cols g) (board g1)
  ∧ (∀ p, valid_position (rows g) (cols g) p.1 p.2 = true →
          mget false (revealed g) p.1 p.2 = true → ¬ is_mine (board g1) p).
Proof.
  intros ((Hwb & Hwr & Hwf) & Hdims & Hok & Hrev & Hfirst & _) Hv g1.
  unfold g1, after_safety.
  destruct (first_click g) eqn:Hfc; simpl;
    [|split_and!; [by destruct g|done..]].
  destruct (mget 0 (board g) row col =? -1);
    [|split_and!; [by destruct g|done..]].
  destruct (ensure_safe_spec g row col pick Hwb Hv) as (Heq & Hwb' & Hok' & _).
  split_and!; [done|done|by apply Hok'|].
  intros p Hp Hr. by rewrite (Hfirst eq_refl p Hp) in Hr.
Qed.

Lemma hidden_cells_bound g :
  0 < rows g → 0 < cols g → (length (hidden_cells g) < flood_fuel g)%nat.
Proof.
  intros Hr Hc. unfold hidden_cells, flood_fuel.
  pose proof (length_filter (fun p => mget false (revealed g) p.1 p.2 = false)
                (all_cells (rows g) (cols g))).
  pose proof (length_all_cells (rows g) (cols g)). lia.
Qed.

#[local] Arguments _flood_fill : simpl never.

(** What a call of [reveal_cell] does, by cases on its guards and on the
    target cell. *)
Lemma reveal_cell_spec g row col pick :
  game_inv g →
  ∃ g' changed,
    reveal_cell g row col pick = Some (g', changed)
    ∧ game_inv g'
    ∧ ((changed = false ∧ g' = g
        ∧ (game_over g = true ∨ _is_valid_position g row col = false
           ∨ mget false (revealed g) row col = true
           ∨ mget false (flagged g) row col = true))
       ∨ (changed = true ∧ game_over g = false
          ∧ _is_valid_position g row col = true
          ∧ mget false (revealed g) row col = false
          ∧ mget false (flagged g) row col = false
          ∧ let g1 := set_first_click (after_safety g row col pick) false in
            (is_mine (board g1) (row, col) ∧ g' = set_over g1 true false)
            ∨ (¬ is_mine (board g1) (row, col)
               ∧ ∃ g2, _flood_fill (flood_fuel g1) g1 row col = Some g2
                       ∧ extends_revealed g1 g2
                       ∧ g' = _check_win_condition g2))).
Proof.
  intros Hinv. unfold reveal_cell.
  destruct (game_over g) eqn:Hover; simpl.
  { exists g, false. split_and!; [done..|]. left. tauto. }
  destruct (_is_valid_position g row col) eqn:Hv; simpl.
  2:{ exists g, false. split_and!; [done..|]. left. tauto. }
  destruct (mget false (revealed g) row col) eqn:Hr; simpl.
  { exists g, false. split_and!; [done..|]. left. tauto. }
  destruct (mget false (flagged g) row col) eqn:Hf; simpl.
  { exists g, false. split_and!; [done..|]. left. tauto. }
  destruct (after_safety_spec g row col pick Hinv Hv) as (Heq & Hwb1 & Hok1 & Hrev1).
  destruct Hinv as ((Hwb & Hwr & Hwf) & Hdims & Hok & Hrev & Hfirst & Hwon & Hcount).
  fold (after_safety g row col pick).
  set (gs := after_safety g row col pick) in *.
  set (g1 := set_first_click gs false).
  assert (Hnotwon : game_won g = false).
  { destruct (game_won g); [|done]. by rewrite Hwon in Hover. }
  assert (Hcount_g : revealed_count g ≠ rows g * cols g - mines g).
  { intros Hc. apply Hcount in Hc. congruence. }
  destruct (Z.eqb_spec (mget 0 (board gs) row col) (-1)) as [Hm|Hm].
  - (* a mine *)
    eexists _, true. split_and!; [done| |right; split_and!; [done..|by left]].
    unfold game_inv, wf_game, g1. rewrite Heq. simpl.
    split_and!; try done; lia.
  - (* not a mine: flood fill, then the win test *)
    destruct (flood_fill_spec (flood_fuel g1) g1 row col) as (g2 & Hfill & Hext).
    { unfold g1. rewrite Heq. done. }
    { unfold g1. rewrite Heq. done. }
    { done. }
    { apply hidden_cells_bound; unfold g1; rewrite Heq; simpl; lia. }
    rewrite Hfill. eexists _, true.
    split_and!; [done| |right; split_and!; [done..|right; split; [done|by eexists]]].
    destruct Hext as (E2 & W2 & M2 & N2).
    unfold g1 in E2, W2, M2, N2. rewrite Heq in E2, W2, M2, N2. simpl in *.
    assert (Hrev2 : ∀ p, valid_position (rows g) (cols g) p.1 p.2 = true →
              mget false (revealed g2) p.1 p.2 = true → ¬ is_mine (board gs) p).
    { intros p Hp H2. destruct (N2 p Hp H2) as [H1|H1]; [by apply Hrev1|done]. }
    unfold _check_win_condition.
    destruct (Z.eqb_spec (revealed_count g2) (rows g2 * cols g2 - mines g2)) as [Hc|Hc];
      rewrite E2 in Hc |- *; unfold game_inv, wf_game; simpl in *;
      split_and!; try done; try lia.
    rewrite Hnotwon. split; [done|]. intros Hc'. by destruct Hc.
Qed.

Lemma toggle_flag_inv g row col : game_inv g → game_inv (toggle_flag g row col).1.
Proof.
  intros Hinv. unfold toggle_flag.
  destruct (_ || _); [done|]. destruct (mget false (revealed g) row col); [done|].
  destruct Hinv as ((Hwb & Hwr & Hwf) & Hrest). unfold game_inv, wf_game. simpl.
  split_and!; try done; try apply Hrest. by apply wf_mset.
Qed.

Lemma new_game_revealed_count d s ps : revealed_count (new_game d s ps) = 0.
Proof.
  rewrite revealed_count_spec. unfold revealed_cells.
  rewrite filter_none; [done|]. intros p _. unfold new_game. simpl.
  by rewrite mget_make_matrix_default.
Qed.

Lemma new_game_inv d s ps :
  valid_tier s →
  is_sample (all_cells (Cfg.rows s) (Cfg.cols s)) (Cfg.mines s) ps →
  game_inv (new_game d s ps).
Proof.
  intros Hs Hps.
  split; [|split; [|split; [|split; [|split; [|split]]]]].
  - apply new_game_wf.
  - apply Hs.
  - apply calculate_on_spec, wf_place_on, wf_make_matrix.
  - intros p _. unfold new_game. simpl. by rewrite mget_make_matrix_default.
  - intros _ p _. unfold new_game. simpl. by rewrite mget_make_matrix_default.
  - done.
  - rewrite new_game_revealed_count. split; [done|].
    destruct Hs as (_ & _ & Hm). change (0 = Cfg.rows s * Cfg.cols s - Cfg.mines s → false = true).
    lia.
Qed.

(** Every state a game goes through satisfies the invariant. *)
Lemma reachable_inv g : reachable g → game_inv g.
Proof.
  induction 1 as [d s ps Hs Hps|g row col pick g' changed _ IH Hcall|g row col _ IH].
  - by apply new_game_inv.
  - destruct (reveal_cell_spec g row col pick IH) as (g'' & ch & Hcall' & Hinv & _).
    rewrite Hcall in Hcall'. by injection Hcall' as -> _.
  - by apply toggle_flag_inv.
Qed.

(** ** The first click *)

Lemma filter_short_exists {A} (P : A → Prop) `{!∀ x, Decision (P x)} (l : list A) :
  (length (filter P l) < length l)%nat → ∃ x, x ∈ l ∧ ¬ P x.
Proof.
  induction l as [|x l IH]; simpl; [lia|].
  rewrite filter_cons. destruct (decide (P x)) as [HP|HP].
  - simpl. intros Hlen. destruct IH as (y & Hy & HPy); [lia|].
    exists y. split; [by right|done].
  - intros _. exists x. split; [left|done].
Qed.

(** A freshly constructed game has a cell that is not a mine. *)
Lemma new_game_safe_cell d s ps :
  valid_tier s →
  is_sample (all_cells (Cfg.rows s) (Cfg.cols s)) (Cfg.mines s) ps →
  ∃ q, valid_position (Cfg.rows s) (Cfg.cols s) q.1 q.2 = true
       ∧ ¬ is_mine (board (new_game d s ps)) q.
Proof.
  intros (Hr & Hc & Hm) Hps.
  pose proof (new_game_mine_cells d s ps Hps) as Hperm.
  apply Permutation_length in Hperm. unfold mine_cells in Hperm.
  change (rows (new_game d s ps)) with (Cfg.rows s) in Hperm.
  change (cols (new_game d s ps)) with (Cfg.cols s) in Hperm.
  destruct (filter_short_exists (is_mine (board (new_game d s ps)))
              (all_cells (Cfg.rows s) (Cfg.cols s))) as (q & Hq & Hnm).
  - pose proof (length_all_cells (Cfg.rows s) (Cfg.cols s)).
    destruct Hps as [Hlen _]. lia.
  - exists q. split; [by apply elem_of_all_cells|done].
Qed.

Lemma check_win_not_lost g :
  game_over g = false → terminal_of (_check_win_condition g) ≠ Lost.
Proof.
  intros Hover. unfold _check_win_condition, terminal_of.
  destruct (_ =? _); simpl; [done|]. by rewrite Hover.
Qed.

Lemma check_win_board g : board (_check_win_condition g) = board g.
Proof. unfold _check_win_condition. by destruct (_ =? _). Qed.

(** C4.  On a freshly constructed game of a tier with fewer mines than
    cells (every tier of [DIFFICULTIES] is one), [reveal_cell] on any
    in-bounds cell returns [True] and does not lose the game, whatever
    [random.choice] draws.  When the cell was a mine, the mine has been
    moved to a cell that was neither a mine nor the target, the target is no
    mine any more, every other cell is a mine exactly if it was one, and the
    numbers of the whole grid have been recomputed; otherwise the board is
    unchanged. *)
Theorem first_click_safe d s ps row col pick :
  valid_tier s →
  is_sample (all_cells (Cfg.rows s) (Cfg.cols s)) (Cfg.mines s) ps →
  valid_position (Cfg.rows s) (Cfg.cols s) row col = true →
  let g := new_game d s ps in
  ∃ g',
    reveal_cell g row col pick = Some (g', true)
    ∧ terminal_of g' ≠ Lost
    ∧ first_click g' = false
    ∧ ¬ is_mine (board g') (row, col)
    ∧ numbers_ok (rows g) (cols g) (board g')
    ∧ (is_mine (board g) (row, col) →
       ∃ new,
         valid_position (rows g) (cols g) new.1 new.2 = true
         ∧ new ≠ (row, col)
         ∧ ¬ is_mine (board g) new
         ∧ board g'
           = calculate_on (rows g) (cols g)
               (mset (mset (board g) row col 0) new.1 new.2 (-1))
         ∧ ∀ q, valid_position (rows g) (cols g) q.1 q.2 = true →
                is_mine (board g') q
                ↔ q = new ∨ (q ≠ (row, col) ∧ is_mine (board g) q))
    ∧ (¬ is_mine (board g) (row, col) → board g' = board g).
Proof.
  intros Hs Hps Hv g.
  pose proof (new_game_inv d s ps Hs Hps) as Hinv. fold g in Hinv.
  assert (Hvg : _is_valid_position g row col = true) by done.
  (* the board after the safety adjustment *)
  assert (Hsafe :
    ¬ is_mine (board (after_safety g row col pick)) (row, col)
    ∧ (is_mine (board g) (row, col) →
       ∃ new, valid_position (rows g) (cols g) new.1 new.2 = true
         ∧ new ≠ (row, col) ∧ ¬ is_mine (board g) new
         ∧ board (after_safety g row col pick)
           = calculate_on (rows g) (cols g)
               (mset (mset (board g) row col 0) new.1 new.2 (-1))
         ∧ ∀ q, valid_position (rows g) (cols g) q.1 q.2 = true →
                is_mine (board (after_safety g row col pick)) q
                ↔ q = new ∨ (q ≠ (row, col) ∧ is_mine (board g) q))
    ∧ (¬ is_mine (board g) (row, col) → board (after_safety g row col pick) = board g)).
  { unfold after_safety. change (first_click g) with true. cbn [andb].
    destruct (Z.eqb_spec (mget 0 (board g) row col) (-1)) as [Hm|Hm];
      [|by split_and!].
    destruct (new_game_safe_cell d s ps Hs Hps) as (q & Hq & Hqm). fold g in Hqm.
    assert (Hspots : safe_spots g row col ≠ []).
    { assert (q ∈ safe_spots g row col) as Hin; [|by intros E; rewrite E in Hin;
        apply elem_of_nil in Hin].
      apply elem_of_safe_spots. split_and!; [done..|]. by intros ->. }
    destruct (ensure_safe_spec g row col pick) as (_ & _ & _ & Hreloc);
      [apply Hinv|done|].
    destruct (Hreloc Hm Hspots) as (new & Hnew & Hboard & Hmines).
    apply elem_of_safe_spots in Hnew as (Hnv & Hnm & Hne).
    split_and!.
    - rewrite (Hmines (row, col) Hv). by intros [?|[? _]].
    - intros _. exists new. by split_and!.
    - done. }
  destruct Hsafe as (Hnm & Hreloc & Hsame).
  destruct (after_safety_spec g row col pick Hinv Hvg) as (Heq & _ & Hok1 & _).
  destruct (reveal_cell_spec g row col pick Hinv)
    as (g' & changed & Hcall & _ & [(_ & _ & Hguard)|(-> & _ & _ & _ & _ & Hcase)]).
  { exfalso. destruct Hguard as [Hg|[Hg|[Hg|Hg]]]; try done; try congruence.
    - unfold g, new_game in Hg. simpl in Hg.
      by rewrite mget_make_matrix_default in Hg.
    - unfold g, new_game in Hg. simpl in Hg.
      by rewrite mget_make_matrix_default in Hg. }
  exists g'. split; [done|].
  destruct Hcase as [[Hmine _]|(_ & g2 & _ & Hext & ->)]; [done|].
  destruct Hext as (E2 & _).
  assert (Hb : board (_check_win_condition g2) = board (after_safety g row col pick)).
  { rewrite check_win_board, E2. done. }
  rewrite Hb. split_and!; try done.
  - apply check_win_not_lost. rewrite E2. simpl. by rewrite Heq.
  - unfold _check_win_condition. rewrite E2. by destruct (_ =? _).
Qed.

Ltac solve_valid_tier := unfold valid_tier; simpl; lia.
Ltac solve_sample :=
  split; [reflexivity | apply (bool_decide_unpack _); vm_compute; exact I].

Lemma first_click_safe_witness :
  ∃ g', reveal_cell (new_game "easy" easy top_mines) 0 0 0 = Some (g', true)
        ∧ terminal_of g' ≠ Lost.
Proof.
  destruct (first_click_safe "easy" easy top_mines 0 0 0) as (g' & Hcall & Hnl & _).
  - solve_valid_tier.
  - solve_sample.
  - reflexivity.
  - exists g'. split; [exact Hcall|exact Hnl].
Defined.

(** The first click of the witness lands on the mine at (0, 0), which moves
    to (1, 1), the first safe spot. *)
Example first_click_relocates :
  ∃ g', reveal_cell (new_game "easy" easy top_mines) 0 0 0 = Some (g', true)
        ∧ mget 0 (board (new_game "easy" easy top_mines)) 0 0 = -1
        ∧ mget 0 (board g') 0 0 = 3
        ∧ mget 0 (board g') 1 1 = -1
        ∧ terminal_of g' = NotOver.
Proof. eexists. split; [vm_compute; reflexivity|]. by vm_compute. Qed.

(** A grid of two cells with one mine, under the first click: the mine
    moves to the only other cell, and the click wins the game. *)
Example first_click_one_spare_cell :
  ∃ g', reveal_cell (new_game "tiny" (Cfg.mk 1 2 1 1.5%float) [(0, 0)]) 0 0 0
        = Some (g', true)
        ∧ board g' = [[1; -1]]
        ∧ terminal_of g' = Won.
Proof. eexists. split; [vm_compute; reflexivity|]. vm_compute. by split. Qed.

(** ** Winning and losing *)

(** C5.  In every state a game goes through, a call of [reveal_cell]
    returns, and in the state it leaves the game is won exactly if the number
    of revealed cells is rows * cols - mines; [revealed_count], the count the
    code takes, is that number.  A call that reveals a cell that is not a
    mine ends with [_check_win_condition], run on the flood-filled state. *)
Theorem win_iff_safe_cells_revealed g row col pick :
  reachable g →
  ∃ g' changed,
    reveal_cell g row col pick = Some (g', changed)
    ∧ (terminal_of g' = Won
       ↔ Z.of_nat (length (revealed_cells g')) = rows g' * cols g' - mines g')
    ∧ revealed_count g' = Z.of_nat (length (revealed_cells g'))
    ∧ (changed = true → ¬ is_mine (board g') (row, col) →
       ∃ g2, _flood_fill
               (flood_fuel g) (set_first_click (after_safety g row col pick) false)
               row col = Some g2
             ∧ g' = _check_win_condition g2).
Proof.
  intros Hinv%reachable_inv.
  destruct (reveal_cell_spec g row col pick Hinv) as (g' & changed & Hcall & Hinv' & Hcase).
  exists g', changed. split; [done|]. split; [|split; [apply revealed_count_spec|]].
  - destruct Hinv' as (_ & _ & _ & _ & _ & Hwon & Hcount).
    rewrite <- revealed_count_spec, <- Hcount. unfold terminal_of.
    destruct (game_won g') eqn:Hw.
    + by rewrite Hwon.
    + split; [|done]. by destruct (game_over g').
  - intros -> Hnm. destruct Hcase as [(? & _)|(_ & _ & Hv & _ & _ & Hcase)]; [done|].
    destruct Hcase as [[Hm ->]|(_ & g2 & Hfill & Hext & ->)]; [done|].
    exists g2. split; [|done].
    destruct (after_safety_spec g row col pick Hinv Hv) as (Heq & _).
    unfold flood_fuel in *. rewrite Heq in Hfill. simpl in Hfill.
    rewrite Heq. exact Hfill.
Qed.

Lemma win_iff_safe_cells_revealed_witness :
  ∃ g' changed,
    reveal_cell (new_game "easy" easy top_mines) 8 0 0 = Some (g', changed)
    ∧ (terminal_of g' = Won
       ↔ Z.of_nat (length (revealed_cells g')) = rows g' * cols g' - mines g').
Proof.
  destruct (win_iff_safe_cells_revealed (new_game "easy" easy top_mines) 8 0 0)
    as (g' & changed & Hcall & Hwon & _).
  - apply reach_new; [solve_valid_tier|solve_sample].
  - exists g', changed. split; [exact Hcall|exact Hwon].
Defined.

(** With the mines in the top row and at (1, 0), one click on (8, 0) reveals
    the 71 safe cells and wins the game. *)
Example one_click_win :
  ∃ g', reveal_cell (new_game "easy" easy top_mines) 8 0 0 = Some (g', true)
        ∧ revealed_count g' = 71
        ∧ terminal_of g' = Won.
Proof. eexists. split; [vm_compute; reflexivity|]. vm_compute. by split. Qed.

(** C10.  In every state a game goes through, no revealed cell is a mine;
    a cell that shows 0 has no mine among its neighbours, so that
    [_flood_fill] does not step onto one; and a [reveal_cell] whose target
    (after the adjustment of the first click) is a mine returns [True],
    loses the game and leaves the [revealed] matrix as it was, the target
    not revealed. *)
Theorem no_mine_revealed g :
  reachable g →
  (∀ p, valid_position (rows g) (cols g) p.1 p.2 = true →
        mget false (revealed g) p.1 p.2 = true → ¬ is_mine (board g) p)
  ∧ (∀ r c d, valid_position (rows g) (cols g) r c = true →
       mget 0 (board g) r c = 0 → d ∈ offsets →
       valid_position (rows g) (cols g) (r + d.1) (c + d.2) = true →
       ¬ is_mine (board g) (r + d.1, c + d.2))
  ∧ (∀ row col pick,
       game_over g = false → _is_valid_position g row col = true →
       mget false (revealed g) row col = false →
       mget false (flagged g) row col = false →
       is_mine (board (after_safety g row col pick)) (row, col) →
       ∃ g', reveal_cell g row col pick = Some (g', true)
             ∧ terminal_of g' = Lost
             ∧ revealed g' = revealed g
             ∧ mget false (revealed g') row col = false).
Proof.
  intros Hinv%reachable_inv. split_and!.
  - apply Hinv.
  - intros r c d. apply zero_no_mine_neighbors, Hinv.
  - intros row col pick Hover Hv Hr Hf Hm.
    destruct (after_safety_spec g row col pick Hinv Hv) as (Heq & _).
    unfold reveal_cell. rewrite Hover, Hv, Hr, Hf. cbn [orb negb].
    fold (after_safety g row col pick). unfold is_mine in Hm.
    change (board (set_first_click ?x false)) with (board x).
    simpl in Hm. rewrite Hm. simpl.
    eexists. split; [done|]. rewrite Heq. simpl. split_and!; done.
Qed.

Lemma no_mine_revealed_witness :
  ∃ g1 g2,
    reveal_cell (new_game "easy" easy top_mines) 1 1 0 = Some (g1, true)
    ∧ reveal_cell g1 0 0 0 = Some (g2, true)
    ∧ terminal_of g2 = Lost
    ∧ revealed g2 = revealed g1.
Proof.
  destruct (reveal_cell (new_game "easy" easy top_mines) 1 1 0)
    as [[g1 changed]|] eqn:Hcall; [|vm_compute in Hcall; discriminate Hcall].
  assert (Hfacts : changed = true
                   ∧ game_over g1 = false
                   ∧ _is_valid_position g1 0 0 = true
                   ∧ mget false (revealed g1) 0 0 = false
                   ∧ mget false (flagged g1) 0 0 = false
                   ∧ is_mine (board (after_safety g1 0 0 0)) (0, 0)).
  { vm_compute in Hcall. injection Hcall as <- <-. vm_compute. by split_and!. }
  destruct Hfacts as (-> & Hover & Hv & Hr & Hf & Hm).
  destruct (no_mine_revealed g1) as (_ & _ & H).
  - eapply reach_reveal; [|exact Hcall].
    apply reach_new; [solve_valid_tier|solve_sample].
  - destruct (H 0 0 0%nat Hover Hv Hr Hf Hm) as (g2 & Hcall2 & Hlost & Hrev & _).
    exists g1, g2. split; [reflexivity|].
    split; [exact Hcall2|]. split; [exact Hlost|exact Hrev].
Defined.

(** ** Flags *)

(** [toggle_flag] keeps revealed and flagged cells apart: it refuses a
    revealed cell. *)
Lemma toggle_flag_keeps_disjoint g row col :
  wf_game g → revealed_flagged_disjoint g →
  revealed_flagged_disjoint (toggle_flag g row col).1.
Proof.
  intros (_ & _ & Hwf) Hdis. unfold toggle_flag.
  destruct (game_over g); [done|]. simpl.
  destruct (_is_valid_position g row col) eqn:Hv; [|done]. simpl.
  destruct (mget false (revealed g) row col) eqn:Hr; [done|].
  intros [r c] Hp [Hrev Hflag]. simpl in *.
  destruct (decide ((row, col) = (r, c))) as [[= <- <-]|Hne]; [congruence|].
  apply (Hdis (r, c) Hp). split; [done|].
  apply valid_position_spec in Hv, Hp.
  by rewrite mget_mset_ne in Hflag by (lia || done).
Qed.

(** The target of a [reveal_cell] that changes the state was not flagged. *)
Lemma reveal_cell_target_unflagged g row col pick g' :
  reveal_cell g row col pick = Some (g', true) →
  mget false (flagged g) row col = false.
Proof.
  unfold reveal_cell. destruct (_ || _); [intros [= _ ?]; done|].
  destruct (mget false (revealed g) row col); [intros [= _ ?]; done|].
  destruct (mget false (flagged g) row col); [intros [= _ ?]; done|].
  intros _. reflexivity.
Qed.

(** C1.  The claim fails on the code: [_flood_fill] does not look at
    [flagged].  On the easy tier with the mines in the top row and at
    (1, 0), flagging (8, 1) and then revealing (8, 0), which shows 0, makes
    the flood fill reveal the flagged cell (8, 1): a state the game goes
    through has a cell that is both revealed and flagged. *)
Theorem flood_fill_reveals_flagged :
  let g1 := (toggle_flag (new_game "easy" easy top_mines) 8 1).1 in
  ∃ g2, reveal_cell g1 8 0 0 = Some (g2, true)
        ∧ reachable g2
        ∧ mget false (flagged g1) 8 1 = true
        ∧ mget false (revealed g2) 8 1 = true
        ∧ mget false (flagged g2) 8 1 = true
        ∧ ¬ revealed_flagged_disjoint g2.
Proof.
  intros g1.
  destruct (reveal_cell g1 8 0 0) as [[g2 changed]|] eqn:Hcall;
    [|vm_compute in Hcall; discriminate Hcall].
  assert (Hfacts : changed = true
                   ∧ mget false (revealed g2) 8 1 = true
                   ∧ mget false (flagged g2) 8 1 = true
                   ∧ rows g2 = 9 ∧ cols g2 = 9).
  { vm_compute in Hcall. injection Hcall as <- <-. vm_compute. by split_and!. }
  destruct Hfacts as (-> & Hr & Hf & Hrows & Hcols).
  exists g2.
  split; [reflexivity|]. split; [|split; [|split; [exact Hr|split; [exact Hf|]]]].
  - eapply reach_reveal; [|exact Hcall]. apply reach_flag.
    apply reach_new; [solve_valid_tier|solve_sample].
  - vm_compute. reflexivity.
  - intros Hdis. apply (Hdis (8, 1)).
    + rewrite Hrows, Hcols. reflexivity.
    + split; [exact Hr|exact Hf].
Qed.


(** * Further properties of the game *)

(** ** What the flood fill covers *)

Lemma reveals_more_refl g :
  wf_matrix (rows g) (cols g) (revealed g) → reveals_more g g.
Proof. intros Hwf. split_and!; [by rewrite set_revealed_id|done|done]. Qed.

Lemma reveals_more_trans g1 g2 g3 :
  reveals_more g1 g2 → reveals_more g2 g3 → reveals_more g1 g3.
Proof.
  intros (E12 & W12 & M12) (E23 & W23 & M23).
  rewrite E12 in E23, W23, M23. simpl in *. split_and!; [done|done|by auto].
Qed.

Lemma reveal_one_more g row col :
  wf_matrix (rows g) (cols g) (revealed g) →
  _is_valid_position g row col = true →
  let g1 := set_revealed g (mset (revealed g) row col true) in
  reveals_more g g1 ∧ mget false (revealed g1) row col = true.
Proof.
  intros Hwf Hv g1. unfold _is_valid_position in Hv.
  assert (Hself : mget false (revealed g1) row col = true).
  { simpl. by erewrite mget_mset_eq. }
  split; [|done]. split_and!; [done|by apply wf_mset|].
  intros [r c] Hp Hrev. simpl in *.
  destruct (decide ((row, col) = (r, c))) as [[= <- <-]|Hne]; [done|].
  apply valid_position_spec in Hv, Hp. by rewrite mget_mset_ne by (lia || done).
Qed.

(** When [_flood_fill] returns, it has only revealed more cells, the cell it
    started from among them, and every cell showing 0 that it has revealed
    has all its neighbours revealed. *)
Lemma flood_fill_closed fuel g row col g' :
  wf_matrix (rows g) (cols g) (revealed g) →
  _flood_fill fuel g row col = Some g' →
  reveals_more g g'
  ∧ (_is_valid_position g row col = true → mget false (revealed g') row col = true)
  ∧ zero_closed_from g g'.
Proof.
  revert g row col g'. induction fuel as [|fuel IH]; intros g row col g' Hwf Hfill;
    [done|].
  rewrite flood_fill_unfold in Hfill.
  destruct (_is_valid_position g row col) eqn:Hv; simpl in Hfill.
  2:{ injection Hfill as <-. split_and!; [by apply reveals_more_refl|done|].
      intros p _ Hr Hh. congruence. }
  destruct (mget false (revealed g) row col) eqn:Hr.
  { injection Hfill as <-. split_and!; [by apply reveals_more_refl|done|].
    intros p _ Hr' Hh. congruence. }
  destruct (reveal_one_more g row col Hwf Hv) as (Hmore1 & Hself1).
  set (g1 := set_revealed g (mset (revealed g) row col true)) in *.
  assert (Hother : ∀ p, valid_position (rows g) (cols g) p.1 p.2 = true →
            p ≠ (row, col) →
            mget false (revealed g1) p.1 p.2 = mget false (revealed g) p.1 p.2).
  { intros [r c] Hp%valid_position_spec Hne. simpl in *.
    apply valid_position_spec in Hv. apply mget_mset_ne; lia || done. }
  destruct (Z.eqb_spec (mget 0 (board g) row col) 0) as [H0|H0].
  2:{ injection Hfill as <-. split_and!; [done|done|].
      intros p Hp Hr1 Hh Hz. simpl in *.
      destruct (decide (p = (row, col))) as [->|Hne]; [done|].
      rewrite Hother in Hr1 by done. congruence. }
  (* the loop over the neighbours *)
  assert (Hloop : ∀ l g2 g3, reveals_more g1 g2 →
            foldM (fun g d => _flood_fill fuel g (row + d.1) (col + d.2)) g2 l = Some g3 →
            reveals_more g2 g3
            ∧ (∀ d, d ∈ l →
                 valid_position (rows g) (cols g) (row + d.1) (col + d.2) = true →
                 mget false (revealed g3) (row + d.1) (col + d.2) = true)
            ∧ zero_closed_from g2 g3).
  { induction l as [|d l IHl]; intros g2 g3 Hmore2 Hfold; simpl in Hfold.
    { injection Hfold as <-. destruct Hmore2 as (E2 & W2 & _).
      split_and!.
      - apply reveals_more_refl. by rewrite E2.
      - by intros d []%elem_of_nil.
      - intros p _ Hr' Hh. congruence. }
    destruct (_flood_fill fuel g2 (row + d.1) (col + d.2)) as [g2'|] eqn:Hsub; [|done].
    assert (Hframe2 : rows g2 = rows g ∧ cols g2 = cols g ∧ board g2 = board g).
    { destruct Hmore2 as (-> & _). done. }
    destruct Hframe2 as (Hrows2 & Hcols2 & Hboard2).
    destruct (IH g2 (row + d.1) (col + d.2) g2') as (Hm & Hself & Hclosed);
      [rewrite Hrows2, Hcols2; apply Hmore2|done|].
    assert (Hframe2' : rows g2' = rows g ∧ cols g2' = cols g ∧ board g2' = board g).
    { destruct Hm as (-> & _). simpl. done. }
    destruct Hframe2' as (Hrows2' & Hcols2' & Hboard2').
    destruct (IHl g2' g3) as (Hm' & Hall & Hclosed');
      [by eapply reveals_more_trans|done|].
    assert (Hframe3 : rows g3 = rows g ∧ cols g3 = cols g ∧ board g3 = board g).
    { destruct Hm' as (-> & _). simpl. done. }
    destruct Hframe3 as (Hrows3 & Hcols3 & Hboard3).
    assert (Hmono' : ∀ p, valid_position (rows g) (cols g) p.1 p.2 = true →
              mget false (revealed g2') p.1 p.2 = true →
              mget false (revealed g3) p.1 p.2 = true).
    { intros p Hp. destruct Hm' as (_ & _ & M). apply M. by rewrite Hrows2', Hcols2'. }
    split_and!.
    - by eapply reveals_more_trans.
    - intros d' [->|Hin]%elem_of_cons Hvd; [|by apply Hall].
      apply (Hmono' (row + d.1, col + d.2) Hvd), Hself.
      unfold _is_valid_position. by rewrite Hrows2, Hcols2.
    - intros p Hp Hr3 Hh2 Hz e He Hve.
      rewrite Hrows3, Hcols3 in Hp, Hve. rewrite Hboard3 in Hz.
      destruct (mget false (revealed g2') p.1 p.2) eqn:Hr2'.
      + apply (Hmono' (p.1 + e.1, p.2 + e.2) Hve).
        apply (Hclosed p); rewrite ?Hrows2', ?Hcols2', ?Hboard2'; done.
      + apply (Hclosed' p); rewrite ?Hrows3, ?Hcols3, ?Hboard3; done. }
  destruct (Hloop offsets g1 g') as (Hm & Hall & Hclosed); [|done|].
  { apply reveals_more_refl. apply Hmore1. }
  assert (Hframe' : rows g' = rows g ∧ cols g' = cols g ∧ board g' = board g).
  { destruct Hm as (-> & _). done. }
  destruct Hframe' as (Hrows' & Hcols' & Hboard').
  assert (Hmono : ∀ p, valid_position (rows g) (cols g) p.1 p.2 = true →
            mget false (revealed g1) p.1 p.2 = true →
            mget false (revealed g') p.1 p.2 = true).
  { intros p Hp. destruct Hm as (_ & _ & M). by apply M. }
  split_and!.
  - by eapply reveals_more_trans.
  - intros _. by apply (Hmono (row, col)).
  - intros p Hp Hr' Hh Hz e He Hve.
    rewrite Hrows', Hcols' in Hp, Hve.
    destruct (decide (p = (row, col))) as [->|Hne].
    + by apply Hall.
    + apply (Hclosed p); rewrite ?Hrows', ?Hcols'; try done.
      by rewrite Hother.
Qed.

(** ** The number of mines *)

Lemma relocation_mine_count nrows ncols (b b' : list (list Z)) p new :
  valid_position nrows ncols p.1 p.2 = true → is_mine b p →
  valid_position nrows ncols new.1 new.2 = true → ¬ is_mine b new →
  (∀ q, valid_position nrows ncols q.1 q.2 = true →
        is_mine b' q ↔ q = new ∨ (q ≠ p ∧ is_mine b q)) →
  length (filter (is_mine b') (all_cells nrows ncols))
  = length (filter (is_mine b) (all_cells nrows ncols)).
Proof.
  intros Hp Hpm Hnew Hnm Hiff.
  set (rest := filter (fun q => q ≠ p ∧ is_mine b q) (all_cells nrows ncols)).
  assert (Hrest : NoDup rest) by apply NoDup_filter, NoDup_all_cells.
  assert (Hin : ∀ q, q ∈ rest
            ↔ (q ≠ p ∧ is_mine b q) ∧ valid_position nrows ncols q.1 q.2 = true).
  { intros q. unfold rest. by rewrite list_elem_of_filter, elem_of_all_cells. }
  assert (H1 : filter (is_mine b) (all_cells nrows ncols) ≡ₚ p :: rest).
  { apply NoDup_Permutation.
    - apply NoDup_filter, NoDup_all_cells.
    - apply NoDup_cons. split; [|done]. rewrite Hin. by intros [[? _] _].
    - intros q. rewrite list_elem_of_filter, elem_of_all_cells, elem_of_cons, Hin.
      destruct (decide (q = p)) as [->|Hne]; [by split; [left|]|].
      split; [intros [? ?]; by right|]. by intros [?|[[_ ?] ?]]. }
  assert (H2 : filter (is_mine b') (all_cells nrows ncols) ≡ₚ new :: rest).
  { apply NoDup_Permutation.
    - apply NoDup_filter, NoDup_all_cells.
    - apply NoDup_cons. split; [|done]. rewrite Hin. by intros [[_ ?] _].
    - intros q. rewrite list_elem_of_filter, elem_of_all_cells, elem_of_cons, Hin.
      split.
      + intros [Hm Hq]. apply (Hiff q Hq) in Hm as [->|Hm]; [by left|by right].
      + intros [->|[Hm Hq]]; (split; [|done]); apply Hiff; auto. }
  by rewrite H1, H2.
Qed.

(** What the safety adjustment does to the board: nothing, or the move of
    the mine under the first click to a safe spot. *)
Lemma after_safety_cases g row col pick :
  wf_matrix (rows g) (cols g) (board g) →
  _is_valid_position g row col = true →
  after_safety g row col pick = g
  ∨ (first_click g = true ∧ is_mine (board g) (row, col)
     ∧ ∃ new, new ∈ safe_spots g row col
         ∧ after_safety g row col pick
           = set_board g (calculate_on (rows g) (cols g)
                            (mset (mset (board g) row col 0) new.1 new.2 (-1)))
         ∧ ∀ q, valid_position (rows g) (cols g) q.1 q.2 = true →
                is_mine (board (after_safety g row col pick)) q
                ↔ q = new ∨ (q ≠ (row, col) ∧ is_mine (board g) q)).
Proof.
  intros Hwf Hv. unfold after_safety.
  destruct (first_click g) eqn:Hfc; [|by left]. cbn [andb].
  destruct (Z.eqb_spec (mget 0 (board g) row col) (-1)) as [Hm|Hm]; [|by left].
  destruct (decide (safe_spots g row col = [])) as [Hnil|Hspots].
  { left. unfold _ensure_safe_first_click. rewrite Hm. simpl. by rewrite Hnil. }
  destruct (ensure_safe_spec g row col pick Hwf Hv) as (Heq & _ & _ & Hreloc).
  destruct (Hreloc Hm Hspots) as (new & Hnew & Hboard & Hmines).
  right. split; [done|]. split; [exact Hm|]. exists new. split_and!; [done| |done].
  by rewrite Heq, Hboard.
Qed.

Lemma after_safety_mine_count g row col pick :
  wf_matrix (rows g) (cols g) (board g) →
  _is_valid_position g row col = true →
  length (mine_cells (after_safety g row col pick)) = length (mine_cells g).
Proof.
  intros Hwf Hv.
  destruct (after_safety_cases g row col pick Hwf Hv)
    as [->|(_ & Hm & new & Hnew & Heq & Hiff)]; [done|].
  apply elem_of_safe_spots in Hnew as (Hnv & Hnm & _).
  unfold mine_cells. rewrite Heq. simpl. rewrite Heq in Hiff. simpl in Hiff.
  by eapply (relocation_mine_count _ _ _ _ (row, col) new).
Qed.

Lemma check_win_frame g :
  ∃ over won, _check_win_condition g = set_over g over won.
Proof.
  unfold _check_win_condition. destruct (_ =? _); [by eexists _, _|].
  exists (game_over g), (game_won g). by destruct g.
Qed.

Lemma reveal_cell_inv2 g row col pick g' changed :
  game_inv g → game_inv2 g →
  reveal_cell g row col pick = Some (g', changed) → game_inv2 g'.
Proof.
  intros Hinv [Hcount Hclosed] Hcall.
  destruct (reveal_cell_spec g row col pick Hinv)
    as (g'' & ch & Hcall' & _ & Hcase).
  rewrite Hcall in Hcall'. injection Hcall' as <- <-.
  destruct Hcase as [(_ & -> & _)|(_ & _ & Hv & _ & _ & Hcase)]; [done|].
  pose proof Hinv as ((Hwb & Hwr & _) & _ & _ & _ & Hfirst & _).
  pose proof (after_safety_mine_count g row col pick Hwb Hv) as Hcount1.
  destruct (after_safety_spec g row col pick Hinv Hv) as (Heq & _).
  set (gs := after_safety g row col pick) in *.
  (* the revealed zeros are closed on the board after the adjustment *)
  assert (Hclosed1 : zero_closed (set_first_click gs false)).
  { destruct (after_safety_cases g row col pick Hwb Hv) as [E|(Hfc & _)].
    - fold gs in E. rewrite E. exact Hclosed.
    - intros p Hp Hr. rewrite Heq in Hp, Hr. simpl in Hp, Hr.
      by rewrite (Hfirst Hfc p Hp) in Hr. }
  assert (Hcount1' : Z.of_nat (length (mine_cells gs)) = mines gs).
  { rewrite Hcount1, Hcount, Heq. done. }
  destruct Hcase as [[_ ->]|(_ & g2 & Hfill & _ & ->)]; [done|].
  assert (Hwr1 : wf_matrix (rows (set_first_click gs false))
                   (cols (set_first_click gs false))
                   (revealed (set_first_click gs false))).
  { rewrite Heq. exact Hwr. }
  destruct (flood_fill_closed _ (set_first_click gs false) row col g2 Hwr1 Hfill)
    as ((E2 & _ & Hmono) & _ & Hnew).
  destruct (check_win_frame g2) as (over & won & ->).
  split.
  - unfold mine_cells in *. rewrite E2. simpl. done.
  - intros p Hp Hr Hz d Hd Hvd. simpl in *.
    destruct (mget false (revealed gs) p.1 p.2) eqn:Hr1.
    + rewrite E2 in Hp, Hz, Hvd. simpl in *. apply (Hmono (p.1 + d.1, p.2 + d.2) Hvd).
      by apply (Hclosed1 p).
    + by apply (Hnew p).
Qed.

Lemma toggle_flag_inv2 g row col : game_inv2 g → game_inv2 (toggle_flag g row col).1.
Proof.
  intros Hinv. unfold toggle_flag.
  destruct (_ || _); [done|]. by destruct (mget false (revealed g) row col).
Qed.

Lemma new_game_inv2 d s ps :
  is_sample (all_cells (Cfg.rows s) (Cfg.cols s)) (Cfg.mines s) ps →
  game_inv2 (new_game d s ps).
Proof.
  intros Hps. split.
  - rewrite (new_game_mine_cells d s ps Hps). apply Hps.
  - intros p _ Hr. unfold new_game in Hr. simpl in Hr.
    by rewrite mget_make_matrix_default in Hr.
Qed.

Lemma reachable_inv2 g : reachable g → game_inv2 g.
Proof.
  induction 1 as [d s ps Hs Hps|g row col pick g' changed Hg IH Hcall|g row col _ IH].
  - by apply new_game_inv2.
  - eapply reveal_cell_inv2; [by apply reachable_inv|done..].
  - by apply toggle_flag_inv2.
Qed.

(** ** What a call leaves as it was *)

Ltac solve_reach_new := apply reach_new; [solve_valid_tier|solve_sample].

Lemma reveal_cell_frame g row col pick g' changed :
  game_inv g → reveal_cell g row col pick = Some (g', changed) →
  (rows g' = rows g ∧ cols g' = cols g ∧ mines g' = mines g
   ∧ settings g' = settings g ∧ difficulty g' = difficulty g)
  ∧ flagged g' = flagged g
  ∧ (∀ p, valid_position (rows g) (cols g) p.1 p.2 = true →
          mget false (revealed g) p.1 p.2 = true →
          mget false (revealed g') p.1 p.2 = true)
  ∧ (first_click g = false → first_click g' = false ∧ board g' = board g)
  ∧ (changed = true → first_click g' = false)
  ∧ (changed = true → terminal_of g' ≠ Lost →
     mget false (revealed g') row col = true)
  ∧ (changed = true → terminal_of g' ≠ Lost → mget 0 (board g') row col ≠ 0 →
     revealed g' = mset (revealed g) row col true).
Proof.
  intros Hinv Hcall.
  destruct (reveal_cell_spec g row col pick Hinv)
    as (g'' & ch & Hcall' & _ & Hcase).
  rewrite Hcall in Hcall'. injection Hcall' as <- <-.
  destruct Hcase as [(-> & -> & _)|(-> & Hover & Hv & Hr & _ & Hcase)];
    [by split_and!|].
  pose proof Hinv as ((Hwb & Hwr & _) & _).
  destruct (after_safety_spec g row col pick Hinv Hv) as (Heq & _).
  assert (Hfc : first_click g = false → after_safety g row col pick = g).
  { intros Hfc. unfold after_safety. by rewrite Hfc. }
  set (gs := after_safety g row col pick) in *.
  destruct Hcase as [[_ ->]|(_ & g2 & Hfill & _ & ->)].
  { rewrite Heq. simpl. split_and!; try done.
    intros Hf. split; [done|]. by rewrite (Hfc Hf). }
  assert (Hwr1 : wf_matrix (rows (set_first_click gs false))
                   (cols (set_first_click gs false))
                   (revealed (set_first_click gs false))).
  { rewrite Heq. exact Hwr. }
  destruct (flood_fill_closed _ (set_first_click gs false) row col g2 Hwr1 Hfill)
    as ((E2 & _ & Hmono) & Hself & _).
  destruct (check_win_frame g2) as (over & won & Ewin). rewrite Ewin.
  assert (Hmono' : ∀ p, valid_position (rows g) (cols g) p.1 p.2 = true →
            mget false (revealed g) p.1 p.2 = true →
            mget false (revealed g2) p.1 p.2 = true).
  { intros p Hp Hrp. apply Hmono; rewrite Heq; done. }
  assert (Hself' : mget false (revealed g2) row col = true).
  { apply Hself. unfold _is_valid_position. rewrite Heq. exact Hv. }
  simpl. rewrite E2, Heq. simpl. split_and!; try done.
  - intros Hf. split; [done|]. by rewrite (Hfc Hf).
  - intros _ _ Hnz. unfold flood_fuel in Hfill. rewrite flood_fill_unfold in Hfill.
    unfold _is_valid_position in Hfill, Hv. rewrite Heq in Hfill. simpl in Hfill.
    rewrite Hv, Hr in Hfill. simpl in Hfill.
    apply Z.eqb_neq in Hnz. rewrite Hnz in Hfill. by injection Hfill as <-.
Qed.

Lemma toggle_flag_frame g row col :
  let g' := (toggle_flag g row col).1 in
  rows g' = rows g ∧ cols g' = cols g ∧ mines g' = mines g
  ∧ settings g' = settings g ∧ difficulty g' = difficulty g
  ∧ board g' = board g ∧ revealed g' = revealed g
  ∧ game_over g' = game_over g ∧ game_won g' = game_won g
  ∧ first_click g' = first_click g.
Proof.
  unfold toggle_flag. destruct (_ || _); [done|].
  by destruct (mget false (revealed g) row col).
Qed.

Lemma reachable_tier g :
  reachable g →
  rows g = Cfg.rows (settings g) ∧ cols g = Cfg.cols (settings g)
  ∧ mines g = Cfg.mines (settings g).
Proof.
  induction 1 as [d s ps Hs Hps|g row col pick g' changed Hg IH Hcall|g row col _ IH].
  - done.
  - destruct (reveal_cell_frame g row col pick g' changed) as ((-> & -> & -> & -> & _) & _);
      [by apply reachable_inv|done|done].
  - destruct (toggle_flag_frame g row col) as (-> & -> & -> & -> & _). done.
Qed.

(** X1.  The number of mines never changes: in every state a game goes
    through, exactly as many cells are mines as the tier of the game says,
    also after the first click has moved a mine; and the dimensions are those
    of the tier. *)
Theorem mine_count_constant g :
  reachable g →
  Z.of_nat (length (mine_cells g)) = Cfg.mines (settings g)
  ∧ rows g = Cfg.rows (settings g) ∧ cols g = Cfg.cols (settings g).
Proof.
  intros Hg. destruct (reachable_tier g Hg) as (Hr & Hc & Hm).
  destruct (reachable_inv2 g Hg) as [Hcount _]. by rewrite <- Hm.
Qed.

Lemma mine_count_constant_witness :
  ∃ g', reveal_cell (new_game "easy" easy top_mines) 0 0 0 = Some (g', true)
        ∧ mget 0 (board g') 1 1 = -1
        ∧ Z.of_nat (length (mine_cells g')) = 10.
Proof.
  destruct (reveal_cell (new_game "easy" easy top_mines) 0 0 0)
    as [[g' changed]|] eqn:Hcall; [|vm_compute in Hcall; discriminate Hcall].
  assert (Hfacts : changed = true ∧ mget 0 (board g') 1 1 = -1
                   ∧ Cfg.mines (settings g') = 10).
  { vm_compute in Hcall. injection Hcall as <- <-. vm_compute. by split_and!. }
  destruct Hfacts as (-> & Hb & Hm).
  destruct (mine_count_constant g') as (Hcount & _).
  - eapply reach_reveal; [|exact Hcall]. solve_reach_new.
  - exists g'. split; [reflexivity|]. split; [exact Hb|]. rewrite Hcount. exact Hm.
Defined.

(** X2.  In every state a game goes through, every revealed cell that shows
    0 has all its neighbours inside the grid revealed: the flood fill leaves
    no revealed empty cell with a hidden neighbour. *)
Theorem revealed_zeros_closed g p d :
  reachable g →
  valid_position (rows g) (cols g) p.1 p.2 = true →
  mget false (revealed g) p.1 p.2 = true →
  mget 0 (board g) p.1 p.2 = 0 →
  d ∈ offsets →
  valid_position (rows g) (cols g) (p.1 + d.1) (p.2 + d.2) = true →
  mget false (revealed g) (p.1 + d.1) (p.2 + d.2) = true.
Proof.
  intros Hg Hv Hr Hz Hd Hvd. destruct (reachable_inv2 g Hg) as [_ Hclosed].
  by apply (Hclosed p).
Qed.

Lemma revealed_zeros_closed_witness :
  ∃ g', reveal_cell (new_game "easy" easy top_mines) 8 0 0 = Some (g', true)
        ∧ mget false (revealed g') 7 1 = true.
Proof.
  destruct (reveal_cell (new_game "easy" easy top_mines) 8 0 0)
    as [[g' changed]|] eqn:Hcall; [|vm_compute in Hcall; discriminate Hcall].
  assert (Hfacts : changed = true
                   ∧ valid_position (rows g') (cols g') 8 0 = true
                   ∧ mget false (revealed g') 8 0 = true
                   ∧ mget 0 (board g') 8 0 = 0
                   ∧ valid_position (rows g') (cols g') (8 + -1) (0 + 1) = true).
  { vm_compute in Hcall. injection Hcall as <- <-. vm_compute. by split_and!. }
  destruct Hfacts as (-> & Hv & Hr & Hz & Hvd).
  exists g'. split; [reflexivity|].
  apply (revealed_zeros_closed g' (8, 0) (-1, 1)).
  - eapply reach_reveal; [|exact Hcall]. solve_reach_new.
  - exact Hv.
  - exact Hr.
  - exact Hz.
  - apply (bool_decide_unpack _). vm_compute. exact I.
  - exact Hvd.
Defined.

(** X3.  A call of [reveal_cell] never hides a cell and never touches a
    flag; when it changes the state without losing the game, the cell it was
    called on is revealed afterwards. *)
Theorem reveal_cell_reveals g row col pick g' changed :
  reachable g →
  reveal_cell g row col pick = Some (g', changed) →
  (∀ p, valid_position (rows g) (cols g) p.1 p.2 = true →
        mget false (revealed g) p.1 p.2 = true →
        mget false (revealed g') p.1 p.2 = true)
  ∧ flagged g' = flagged g
  ∧ (changed = true → terminal_of g' ≠ Lost →
     mget false (revealed g') row col = true).
Proof.
  intros Hg%reachable_inv Hcall.
  destruct (reveal_cell_frame g row col pick g' changed Hg Hcall)
    as (_ & Hf & Hmono & _ & _ & Hself & _).
  by split_and!.
Qed.

Lemma reveal_cell_reveals_witness :
  ∃ g', reveal_cell (new_game "easy" easy top_mines) 1 1 0 = Some (g', true)
        ∧ mget false (revealed g') 1 1 = true
        ∧ flagged g' = flagged (new_game "easy" easy top_mines).
Proof.
  destruct (reveal_cell (new_game "easy" easy top_mines) 1 1 0)
    as [[g' changed]|] eqn:Hcall; [|vm_compute in Hcall; discriminate Hcall].
  assert (Hfacts : changed = true ∧ terminal_of g' ≠ Lost).
  { vm_compute in Hcall. injection Hcall as <- <-. vm_compute. by split. }
  destruct Hfacts as (-> & Hnl).
  destruct (reveal_cell_reveals (new_game "easy" easy top_mines) 1 1 0 g' true)
    as (_ & Hf & Hself).
  - solve_reach_new.
  - exact Hcall.
  - exists g'. split; [reflexivity|]. split; [exact (Hself eq_refl Hnl)|exact Hf].
Defined.

(** X4.  A [reveal_cell] that changes the state without losing the game, on
    a cell that shows a number other than 0, reveals that cell and no
    other. *)
Theorem numbered_cell_reveals_itself g row col pick g' :
  reachable g →
  reveal_cell g row col pick = Some (g', true) →
  terminal_of g' ≠ Lost →
  mget 0 (board g') row col ≠ 0 →
  revealed g' = mset (revealed g) row col true.
Proof.
  intros Hg%reachable_inv Hcall Hnl Hnz.
  destruct (reveal_cell_frame g row col pick g' true Hg Hcall)
    as (_ & _ & _ & _ & _ & _ & Hone).
  by apply Hone.
Qed.

Lemma numbered_cell_reveals_itself_witness :
  ∃ g', reveal_cell (new_game "easy" easy top_mines) 1 1 0 = Some (g', true)
        ∧ revealed g' = mset (revealed (new_game "easy" easy top_mines)) 1 1 true.
Proof.
  destruct (reveal_cell (new_game "easy" easy top_mines) 1 1 0)
    as [[g' changed]|] eqn:Hcall; [|vm_compute in Hcall; discriminate Hcall].
  assert (Hfacts : changed = true ∧ terminal_of g' ≠ Lost
                   ∧ mget 0 (board g') 1 1 ≠ 0).
  { vm_compute in Hcall. injection Hcall as <- <-. vm_compute. by split_and!. }
  destruct Hfacts as (-> & Hnl & Hnz).
  exists g'. split; [reflexivity|].
  apply (numbered_cell_reveals_itself (new_game "easy" easy top_mines) 1 1 0 g').
  - solve_reach_new.
  - exact Hcall.
  - exact Hnl.
  - exact Hnz.
Defined.

(** ** Sequences of calls *)

Lemma apply_move_reachable g m g' :
  reachable g → apply_move g m = Some g' → reachable g'.
Proof.
  intros Hg. destruct m as [row col pick|row col]; simpl.
  - destruct (reveal_cell g row col pick) as [[g'' ch]|] eqn:Hcall; [|done].
    intros [= <-]. by eapply reach_reveal.
  - intros [= <-]. by apply reach_flag.
Qed.

Lemma play_reachable g ms g' : reachable g → play g ms = Some g' → reachable g'.
Proof.
  unfold play. revert g. induction ms as [|m ms IH]; intros g Hg; simpl.
  { by intros [= <-]. }
  destruct (apply_move g m) as [g1|] eqn:Hm; [|done].
  apply IH. by eapply apply_move_reachable.
Qed.

(** X5.  The mines stay where they are once the first click is made: from a
    state whose first click is behind, no sequence of [reveal_cell] and
    [toggle_flag] calls changes the board. *)
Theorem board_fixed_after_first_click g ms g' :
  reachable g → first_click g = false → play g ms = Some g' →
  board g' = board g ∧ first_click g' = false.
Proof.
  unfold play. revert g. induction ms as [|m ms IH]; intros g Hg Hfc; simpl.
  { by intros [= <-]. }
  destruct (apply_move g m) as [g1|] eqn:Hm; [|done].
  assert (board g1 = board g ∧ first_click g1 = false) as [Hb1 Hfc1].
  { destruct m as [row col pick|row col]; simpl in Hm.
    - destruct (reveal_cell g row col pick) as [[g'' ch]|] eqn:Hcall; [|done].
      injection Hm as ->.
      destruct (reveal_cell_frame g row col pick g1 ch) as (_ & _ & _ & H & _);
        [by apply reachable_inv|done|].
      by destruct (H Hfc).
    - injection Hm as <-.
      destruct (toggle_flag_frame g row col) as (_ & _ & _ & _ & _ & -> & _ & _ & _ & ->).
      done. }
  intros Hplay. destruct (IH g1) as [Hb Hf]; [by eapply apply_move_reachable|done..|].
  by rewrite Hb.
Qed.

Lemma board_fixed_after_first_click_witness :
  ∃ g1 g2,
    reveal_cell (new_game "easy" easy top_mines) 1 1 0 = Some (g1, true)
    ∧ play g1 [Flag 0 0; Reveal 8 0 0] = Some g2
    ∧ board g2 = board g1.
Proof.
  destruct (reveal_cell (new_game "easy" easy top_mines) 1 1 0)
    as [[g1 changed]|] eqn:Hcall; [|vm_compute in Hcall; discriminate Hcall].
  assert (Hfacts : changed = true ∧ first_click g1 = false).
  { vm_compute in Hcall. injection Hcall as <- <-. vm_compute. by split. }
  destruct Hfacts as (-> & Hfc).
  destruct (play g1 [Flag 0 0; Reveal 8 0 0]) as [g2|] eqn:Hplay.
  2:{ vm_compute in Hcall. injection Hcall as <-. vm_compute in Hplay.
      discriminate Hplay. }
  exists g1, g2. split; [reflexivity|]. split; [exact Hplay|].
  destruct (board_fixed_after_first_click g1 [Flag 0 0; Reveal 8 0 0] g2) as [Hb _].
  - eapply reach_reveal; [|exact Hcall]. solve_reach_new.
  - exact Hfc.
  - exact Hplay.
  - exact Hb.
Defined.

(** X6.  A game that is over stays as it is: every further sequence of
    [reveal_cell] and [toggle_flag] calls returns and leaves the state
    unchanged. *)
Theorem game_over_absorbing g ms : game_over g = true → play g ms = Some g.
Proof.
  intros Hover. unfold play. induction ms as [|m ms IH]; simpl; [done|].
  assert (apply_move g m = Some g) as ->; [|done].
  destruct m as [row col pick|row col]; simpl.
  - unfold reveal_cell. by rewrite Hover.
  - unfold toggle_flag. by rewrite Hover.
Qed.

Lemma game_over_absorbing_witness :
  ∃ g', reveal_cell (new_game "easy" easy top_mines) 8 0 0 = Some (g', true)
        ∧ play g' [Reveal 0 0 0; Flag 1 1; Reveal 1 1 0] = Some g'.
Proof.
  destruct (reveal_cell (new_game "easy" easy top_mines) 8 0 0)
    as [[g' changed]|] eqn:Hcall; [|vm_compute in Hcall; discriminate Hcall].
  assert (Hfacts : changed = true ∧ game_over g' = true).
  { vm_compute in Hcall. injection Hcall as <- <-. vm_compute. by split. }
  destruct Hfacts as (-> & Hover).
  exists g'. split; [reflexivity|].
  apply (game_over_absorbing g' [Reveal 0 0 0; Flag 1 1; Reveal 1 1 0]).
  exact Hover.
Defined.

(** ** Numbers and flags *)

Lemma mine_neighbors_le_8 nrows ncols b r c : mine_neighbors nrows ncols b r c ≤ 8.
Proof.
  unfold mine_neighbors.
  pose proof (length_filter
    (fun d => valid_position nrows ncols (r + d.1) (c + d.2) = true
              ∧ is_mine b (r + d.1, c + d.2)) offsets) as Hlen.
  simpl in Hlen. lia.
Qed.

(** X7.  In every state a game goes through, each cell of the grid holds the
    mine sentinel -1 or a number from 0 to 8. *)
Theorem numbers_in_range g r c :
  reachable g → valid_position (rows g) (cols g) r c = true →
  mget 0 (board g) r c = -1 ∨ 0 ≤ mget 0 (board g) r c ≤ 8.
Proof.
  intros (_ & _ & Hok & _)%reachable_inv Hv.
  destruct (decide (mget 0 (board g) r c = -1)) as [|Hm]; [by left|right].
  rewrite (Hok r c Hv Hm).
  pose proof (mine_neighbors_nonneg (rows g) (cols g) (board g) r c).
  pose proof (mine_neighbors_le_8 (rows g) (cols g) (board g) r c). lia.
Qed.

Lemma numbers_in_range_witness :
  mget 0 (board (new_game "easy" easy top_mines)) 1 1 = -1
  ∨ 0 ≤ mget 0 (board (new_game "easy" easy top_mines)) 1 1 ≤ 8.
Proof.
  apply (numbers_in_range (new_game "easy" easy top_mines) 1 1).
  - solve_reach_new.
  - reflexivity.
Defined.

Lemma mset_mset {A} (m : list (list A)) r c (a b : A) :
  mset (mset m r c a) r c b = mset m r c b.
Proof.
  unfold mset. rewrite list_alter_alter_eq. apply list_alter_ext; [|done].
  intros row _. simpl. apply list_insert_insert_eq.
Qed.

Lemma mset_mget_id {A} (d : A) nrows ncols (m : list (list A)) r c :
  wf_matrix nrows ncols m → valid_position nrows ncols r c = true →
  mset m r c (mget d m r c) = m.
Proof.
  intros Hwf Hv. destruct (mget_in_range d nrows ncols m r c Hwf Hv) as (row & Hrow & Hx).
  unfold mset. apply list_eq. intros i.
  destruct (decide (i = Z.to_nat r)) as [->|Hne].
  - rewrite list_lookup_alter_eq, Hrow. simpl. by rewrite list_insert_id.
  - by rewrite list_lookup_alter_ne.
Qed.

(** X8.  On a hidden cell of a game that is not over, [toggle_flag] flips
    the flag of that cell and returns [True], and a second [toggle_flag] on
    the same cell restores the state exactly. *)
Theorem toggle_flag_involutive g row col :
  reachable g → game_over g = false →
  _is_valid_position g row col = true →
  mget false (revealed g) row col = false →
  let g1 := (toggle_flag g row col).1 in
  (toggle_flag g row col).2 = true
  ∧ mget false (flagged g1) row col = negb (mget false (flagged g) row col)
  ∧ toggle_flag g1 row col = (g, true).
Proof.
  intros ((_ & _ & Hwf) & _)%reachable_inv Hover Hv Hr. unfold toggle_flag.
  rewrite Hover, Hv, Hr. simpl. rewrite Hover. unfold _is_valid_position in *.
  simpl. rewrite Hv, Hr. simpl.
  erewrite mget_mset_eq by done. split_and!; [done..|].
  f_equal. rewrite negb_involutive. unfold set_flagged. simpl.
  rewrite mset_mset. erewrite mset_mget_id by done. by destruct g.
Qed.

Lemma toggle_flag_involutive_witness :
  toggle_flag (toggle_flag (new_game "easy" easy top_mines) 0 0).1 0 0
  = (new_game "easy" easy top_mines, true).
Proof.
  destruct (toggle_flag_involutive (new_game "easy" easy top_mines) 0 0) as (_ & _ & H).
  - solve_reach_new.
  - reflexivity.
  - reflexivity.
  - reflexivity.
  - exact H.
Defined.

(** ** Winning *)

Lemma length_safe_cells nrows ncols b :
  (length (filter (fun p => ¬ is_mine b p) (all_cells nrows ncols))
   + length (filter (is_mine b) (all_cells nrows ncols))
   = length (all_cells nrows ncols))%nat.
Proof.
  rewrite <- (filter_app_complement (is_mine b) (all_cells nrows ncols)) at 3.
  rewrite length_app. lia.
Qed.

(** X9.  In every state a game goes through, the game is won exactly when
    the revealed cells are the cells that are not mines: every safe cell is
    revealed and no mine is. *)
Theorem won_iff_all_safe_revealed g :
  reachable g →
  terminal_of g = Won
  ↔ ∀ p, valid_position (rows g) (cols g) p.1 p.2 = true →
         (mget false (revealed g) p.1 p.2 = true ↔ ¬ is_mine (board g) p).
Proof.
  intros Hg. pose proof (reachable_inv g Hg) as (_ & Hdims & _ & Hrev & _ & Hwon & Hcount).
  destruct (reachable_inv2 g Hg) as [Hmines _].
  assert (Hterm : terminal_of g = Won ↔ game_won g = true).
  { unfold terminal_of. destruct (game_won g) eqn:Hw.
    - by rewrite Hwon.
    - split; [|done]. by destruct (game_over g). }
  rewrite Hterm, Hcount, revealed_count_spec. clear Hterm.
  pose proof (length_safe_cells (rows g) (cols g) (board g)) as Hsafe.
  pose proof (length_all_cells (rows g) (cols g)) as Hall.
  unfold mine_cells in Hmines. unfold revealed_cells.
  set (safe := filter (fun p => ¬ is_mine (board g) p) (all_cells (rows g) (cols g))) in *.
  set (shown := filter (fun p => mget false (revealed g) p.1 p.2 = true)
                  (all_cells (rows g) (cols g))).
  assert (Hsub : shown ⊆+ safe).
  { apply NoDup_submseteq; [apply NoDup_filter, NoDup_all_cells|].
    intros p [Hr Hp]%list_elem_of_filter. apply list_elem_of_filter. split; [|done].
    apply elem_of_all_cells in Hp. by apply Hrev. }
  split.
  - intros Hlen p Hp.
    assert (Hperm : shown ≡ₚ safe) by (apply submseteq_length_Permutation; [done|lia]).
    split; [by apply Hrev|]. intros Hm.
    assert (p ∈ shown) as [? _]%list_elem_of_filter; [|done].
    rewrite Hperm. apply list_elem_of_filter. split; [done|by apply elem_of_all_cells].
  - intros Hiff.
    assert (Hperm : shown ≡ₚ safe).
    { apply NoDup_Permutation; try apply NoDup_filter, NoDup_all_cells.
      intros p. unfold shown, safe. rewrite !list_elem_of_filter, elem_of_all_cells.
      split; intros [H1 Hp]; (split; [by apply (Hiff p Hp)|done]). }
    rewrite Hperm. lia.
Qed.

Lemma won_iff_all_safe_revealed_witness :
  ∃ g', reveal_cell (new_game "easy" easy top_mines) 8 0 0 = Some (g', true)
        ∧ mget false (revealed g') 2 3 = true.
Proof.
  destruct (reveal_cell (new_game "easy" easy top_mines) 8 0 0)
    as [[g' changed]|] eqn:Hcall; [|vm_compute in Hcall; discriminate Hcall].
  assert (Hfacts : changed = true ∧ terminal_of g' = Won
                   ∧ valid_position (rows g') (cols g') 2 3 = true
                   ∧ ¬ is_mine (board g') (2, 3)).
  { vm_compute in Hcall. injection Hcall as <- <-. vm_compute. by split_and!. }
  destruct Hfacts as (-> & Hwon & Hv & Hm).
  exists g'. split; [reflexivity|].
  destruct (won_iff_all_safe_revealed g') as [Hall _].
  - eapply reach_reveal; [|exact Hcall]. solve_reach_new.
  - apply (Hall Hwon (2, 3) Hv). exact Hm.
Defined.


(** * Further properties of the ledger and of its callers *)

(** ** The order of the floats *)

Lemma SFcompare_key x y :
  match SFcompare x y with
  | None => float_key x = None ∨ float_key y = None
  | Some c =>
      ∃ a b, float_key x = Some a ∧ float_key y = Some b
             ∧ match c with Lt => key_lt a b | Eq => a = b | Gt => key_lt b a end
  end.
Proof.
  unfold key_lt.
  destruct x as [sx|sx| |sx mx ex], y as [sy|sy| |sy my ey]; simpl; auto;
    try (destruct sx; simpl; eauto 10 with lia; fail);
    try (destruct sy; simpl; eauto 10 with lia; fail);
    try (destruct sx, sy; simpl; eexists _, _; split_and!; try done; simpl; lia).
  destruct sx, sy; simpl; try (eexists _, _; split_and!; try done; simpl; lia).
  - change (Pos.compare_cont Eq mx my) with (Pos.compare mx my).
    destruct (Z.compare_spec ex ey), (Pos.compare_spec mx my); simpl;
      eexists _, _; (split_and!; [done|done|]); simpl; subst; try done; lia.
  - change (Pos.compare_cont Eq mx my) with (Pos.compare mx my).
    destruct (Z.compare_spec ex ey), (Pos.compare_spec mx my); simpl;
      eexists _, _; (split_and!; [done|done|]); simpl; subst; try done; lia.
Qed.

Lemma key_lt_cases (a b : Z * Z * Z) : key_lt a b ∨ a = b ∨ key_lt b a.
Proof.
  destruct a as [[a1 a2] a3], b as [[b1 b2] b3]. unfold key_lt. simpl.
  destruct (decide (a1 = b1)) as [->|]; [|lia].
  destruct (decide (a2 = b2)) as [->|]; [|lia].
  destruct (decide (a3 = b3)) as [->|]; [|lia]. by right; left.
Qed.

Lemma ltb_key x y :
  (x <? y)%float = true
  ↔ ∃ a b, float_key (Prim2SF x) = Some a ∧ float_key (Prim2SF y) = Some b ∧ key_lt a b.
Proof.
  rewrite ltb_spec. unfold SFltb.
  pose proof (SFcompare_key (Prim2SF x) (Prim2SF y)) as H.
  destruct (SFcompare (Prim2SF x) (Prim2SF y)) as [[]|].
  - destruct H as (a & b & Ha & Hb & ->). split; [done|].
    intros (a' & b' & Ha' & Hb' & Hlt). simplify_eq. unfold key_lt in Hlt. lia.
  - destruct H as (a & b & Ha & Hb & Hlt). split; [by eauto|done].
  - destruct H as (a & b & Ha & Hb & Hgt). split; [done|].
    intros (a' & b' & Ha' & Hb' & Hlt). simplify_eq. unfold key_lt in *. lia.
  - split; [done|]. intros (a' & b' & Ha' & Hb' & _). destruct H; congruence.
Qed.

Lemma leb_key x y :
  (x <=? y)%float = true
  ↔ ∃ a b, float_key (Prim2SF x) = Some a ∧ float_key (Prim2SF y) = Some b
           ∧ (key_lt a b ∨ a = b).
Proof.
  rewrite leb_spec. unfold SFleb.
  pose proof (SFcompare_key (Prim2SF x) (Prim2SF y)) as H.
  destruct (SFcompare (Prim2SF x) (Prim2SF y)) as [[]|].
  - destruct H as (a & b & Ha & Hb & ->). split; [by eauto 10|done].
  - destruct H as (a & b & Ha & Hb & Hlt). split; [by eauto 10|done].
  - destruct H as (a & b & Ha & Hb & Hgt). split; [done|].
    intros (a' & b' & Ha' & Hb' & Hle). simplify_eq. unfold key_lt in *.
    destruct Hle as [?| ->]; lia.
  - split; [done|]. intros (a' & b' & Ha' & Hb' & _). destruct H; congruence.
Qed.

Lemma is_number_key x : is_number x ↔ ∃ a, float_key (Prim2SF x) = Some a.
Proof.
  unfold is_number. rewrite FloatAxioms.eqb_spec. unfold SFeqb.
  pose proof (SFcompare_key (Prim2SF x) (Prim2SF x)) as H.
  destruct (SFcompare (Prim2SF x) (Prim2SF x)) as [[]|].
  - destruct H as (a & b & Ha & Hb & ->). split; [by eauto|done].
  - destruct H as (a & b & Ha & Hb & Hlt). simplify_eq. unfold key_lt in Hlt. lia.
  - destruct H as (a & b & Ha & Hb & Hlt). simplify_eq. unfold key_lt in Hlt. lia.
  - split; [done|]. intros [a Ha]. destruct H; congruence.
Qed.

(** [min(a, b)] of two numbers is one of them, and below both. *)
Lemma py_min_key a b ka kb :
  float_key (Prim2SF a) = Some ka → float_key (Prim2SF b) = Some kb →
  ∃ k, float_key (Prim2SF (py_min a b)) = Some k
       ∧ (k = ka ∨ k = kb) ∧ (key_lt k ka ∨ k = ka) ∧ (key_lt k kb ∨ k = kb).
Proof.
  intros Ha Hb. unfold py_min. destruct (b <? a)%float eqn:Hlt.
  - apply ltb_key in Hlt as (kb' & ka' & Hb' & Ha' & Hlt).
    assert (kb' = kb) as -> by congruence. assert (ka' = ka) as -> by congruence.
    exists kb. split_and!; auto.
  - exists ka. split_and!; auto.
    destruct (key_lt_cases ka kb) as [?|[?|Hgt]]; auto.
    assert ((b <? a)%float = true) by (apply ltb_key; eauto). congruence.
Qed.

Lemma key_lt_trans a b c : key_lt a b → key_lt b c → key_lt a c.
Proof.
  destruct a as [[a1 a2] a3], b as [[b1 b2] b3], c as [[c1 c2] c3].
  unfold key_lt. simpl. lia.
Qed.

Lemma key_lt_irrefl a : ¬ key_lt a a.
Proof. destruct a as [[a1 a2] a3]. unfold key_lt. simpl. lia. Qed.

Lemma leb_not_ltb x y : (x <=? y)%float = true → (y <? x)%float = false.
Proof.
  intros (a & b & Ha & Hb & Hle)%leb_key.
  destruct (y <? x)%float eqn:Hlt; [|done].
  apply ltb_key in Hlt as (b' & a' & Hb' & Ha' & Hlt).
  assert (b' = b) as -> by congruence. assert (a' = a) as -> by congruence.
  destruct Hle as [Hle| ->].
  - destruct (key_lt_irrefl a). by eapply key_lt_trans.
  - by destruct (key_lt_irrefl b).
Qed.

Lemma ltb_negb_leb x y :
  is_number x → is_number y → (x <? y)%float = negb (y <=? x)%float.
Proof.
  intros [a Ha]%is_number_key [b Hb]%is_number_key.
  destruct (y <=? x)%float eqn:Hle; simpl.
  - by apply leb_not_ltb.
  - apply ltb_key. exists a, b. split_and!; [done..|].
    destruct (key_lt_cases a b) as [?|[->|Hgt]]; [done| |].
    + assert ((y <=? x)%float = true) by (apply leb_key; eauto 10). congruence.
    + assert ((y <=? x)%float = true) by (apply leb_key; eauto 10). congruence.
Qed.

Lemma leb_is_number x y : (x <=? y)%float = true → is_number x ∧ is_number y.
Proof.
  intros (a & b & Ha & Hb & _)%leb_key. split; apply is_number_key; eauto.
Qed.

Lemma py_min_is_number a b : is_number (py_min a b) → is_number b → is_number a.
Proof.
  unfold py_min. destruct (b <? a)%float eqn:Hlt; [|done].
  intros _ _. apply ltb_key in Hlt as (kb & ka & _ & Ha & _).
  apply is_number_key. eauto.
Qed.

(** [x <= min(a, b)] says [x <= a] and [x <= b], for numbers. *)
Lemma leb_py_min x a b :
  is_number b →
  (x <=? py_min a b)%float = true ↔ (x <=? a)%float = true ∧ (x <=? b)%float = true.
Proof.
  intros [kb Hb]%is_number_key. split.
  - intros Hle. pose proof Hle as (kx & k & Hx & Hk & Hxk)%leb_key.
    assert (is_number a) as [ka Ha]%is_number_key.
    { apply (py_min_is_number a b); apply is_number_key; eauto. }
    destruct (py_min_key a b ka kb Ha Hb) as (k' & Hk' & _ & Hka & Hkb).
    assert (k' = k) as -> by congruence.
    split; apply leb_key; exists kx; eexists; (split_and!; [done..|]).
    + destruct Hxk as [?| ->], Hka as [?| ->]; auto. left. by eapply key_lt_trans.
    + destruct Hxk as [?| ->], Hkb as [?| ->]; auto. left. by eapply key_lt_trans.
  - intros [(kx & ka & Hx & Ha & Hxa)%leb_key (kx' & kb' & Hx' & Hb' & Hxb)%leb_key].
    assert (kx' = kx) as -> by congruence. assert (kb' = kb) as -> by congruence.
    destruct (py_min_key a b ka kb Ha Hb) as (k & Hk & [->| ->] & _);
      apply leb_key; eauto 10.
Qed.

Lemma MAX_BET_is_number : is_number MAX_BET.
Proof. reflexivity. Qed.

Lemma MIN_BET_is_number : is_number MIN_BET.
Proof. reflexivity. Qed.

(** ** Bets that reach the ledger *)

(** X10.  Every bet that passes the test of [confirm_bet] is accepted by
    [place_bet]: the pair that [confirm_bet] drops is always [(True, ...)],
    and the game starts with the bet and the difficulty recorded and the
    bankroll untouched. *)
Theorem confirm_bet_places_bet gs bet d :
  bet_in_range gs bet = true →
  place_bet gs bet d = (mkLedger (bankroll gs) bet d, (true, BetPlaced bet d))
  ∧ confirm_bet gs bet d = (mkLedger (bankroll gs) bet d, true).
Proof.
  intros Hgate. unfold confirm_bet. rewrite Hgate.
  apply andb_true_iff in Hgate as [Hmin Hmax].
  apply leb_py_min in Hmax as [Hbank Hmax]; [|apply MAX_BET_is_number].
  assert (place_bet gs bet d = (mkLedger (bankroll gs) bet d, (true, BetPlaced bet d)))
    as ->; [|done].
  unfold place_bet. by rewrite !leb_not_ltb.
Qed.

Lemma confirm_bet_places_bet_witness :
  confirm_bet GamblingSystem_init 10 "easy" = (bet_10_easy, true).
Proof.
  destruct (confirm_bet_places_bet GamblingSystem_init 10 "easy") as [_ H].
  - reflexivity.
  - exact H.
Defined.

(** X11.  For a bet and a bankroll that are numbers, the three betting tests
    agree: the test of [start_hand] and [play_slots] refuses a bet exactly
    when the test of [confirm_bet] does not pass, and the test of
    [confirm_bet] passes exactly when [place_bet] accepts the bet. *)
Theorem bet_tests_agree gs bet d :
  is_number bet → is_number (bankroll gs) →
  bet_refused gs bet = negb (bet_in_range gs bet)
  ∧ (bet_in_range gs bet = true ↔ (place_bet gs bet d).2.1 = true).
Proof.
  intros Hbet Hbank.
  assert (Hmin : is_number (py_min (bankroll gs) MAX_BET)).
  { unfold py_min. destruct (_ <? _)%float; [apply MAX_BET_is_number|done]. }
  split.
  - unfold bet_refused, bet_in_range.
    rewrite (ltb_negb_leb bet MIN_BET), (ltb_negb_leb _ bet) by
      (done || apply MIN_BET_is_number).
    by rewrite negb_andb.
  - unfold bet_in_range. rewrite andb_true_iff, leb_py_min by apply MAX_BET_is_number.
    unfold place_bet.
    rewrite (ltb_negb_leb bet MIN_BET), (ltb_negb_leb MAX_BET bet),
      (ltb_negb_leb (bankroll gs) bet) by
      (done || apply MIN_BET_is_number || apply MAX_BET_is_number).
    destruct (MIN_BET <=? bet)%float, (bet <=? MAX_BET)%float,
      (bet <=? bankroll gs)%float; simpl; split; (done || tauto || by intros [? [? ?]]).
Qed.

Lemma bet_tests_agree_witness :
  bet_refused GamblingSystem_init 250 = negb (bet_in_range GamblingSystem_init 250).
Proof.
  destruct (bet_tests_agree GamblingSystem_init 250 "easy") as [H _].
  - reflexivity.
  - reflexivity.
  - exact H.
Defined.

(** A NaN bet is where the tests part: [confirm_bet] turns it down, while
    [start_hand], [play_slots] and [place_bet] let it through. *)
Example nan_bet_tests :
  bet_in_range GamblingSystem_init nan = false
  ∧ bet_refused GamblingSystem_init nan = false
  ∧ (place_bet GamblingSystem_init nan "easy").2.1 = true.
Proof. by vm_compute. Qed.

(** ** Settlements *)

(** X12.  A settlement leaves nothing to settle: after [win_game] or
    [lose_game], a further [win_game] or [lose_game] returns normally with a
    payout or loss of zero and keeps the bankroll at the same amount. *)
Theorem second_settlement_changes_nothing gs s gs1 :
  DIFFICULTIES !! current_difficulty gs = Some s →
  (∃ r, win_game gs = inr (gs1, r)) ∨ gs1 = (lose_game gs).1 →
  current_bet gs1 = 0%float
  ∧ (∃ gs2 r2, win_game gs1 = inr (gs2, r2)
       ∧ (payout r2 =? 0)%float = true
       ∧ same_amount (bankroll gs2) (bankroll gs1)
       ∧ current_bet gs2 = 0%float)
  ∧ (loss (lose_game gs1).2 =? 0)%float = true
  ∧ same_amount (bankroll (lose_game gs1).1) (bankroll gs1)
  ∧ current_bet (lose_game gs1).1 = 0%float.
Proof.
  intros Hs Hsettled.
  assert (Hgs1 : current_bet gs1 = 0%float
                 ∧ current_difficulty gs1 = current_difficulty gs).
  { destruct Hsettled as [[r Hwin]| ->]; [|done].
    unfold win_game in Hwin. rewrite Hs in Hwin. by injection Hwin as <- _. }
  destruct Hgs1 as [Hbet Hd]. split; [done|].
  destruct (zero_payout (current_difficulty gs) s 0%float Hs) as (Hp & Hp0 & _);
    [by left|].
  split_and!.
  - unfold win_game. rewrite Hd, Hs, Hbet. eexists _, _. split; [done|]. simpl.
    split_and!; [done| |done]. by apply float_add_zero.
  - simpl. by rewrite Hbet.
  - unfold lose_game. simpl. apply float_sub_zero. left. exact Hbet.
  - done.
Qed.

Lemma second_settlement_changes_nothing_witness :
  same_amount (bankroll (lose_game (lose_game bet_10_easy).1).1)
              (bankroll (lose_game bet_10_easy).1).
Proof.
  destruct (second_settlement_changes_nothing bet_10_easy easy (lose_game bet_10_easy).1)
    as (_ & _ & _ & H & _).
  - reflexivity.
  - right. reflexivity.
  - exact H.
Defined.

(** X13.  [win_game] raises [KeyError] exactly when the recorded difficulty
    is none of 'easy', 'medium' and 'hard', which [place_bet] never checks;
    the error names that difficulty, and nothing of the ledger has been
    changed when it is raised, the lookup being the first thing [win_game]
    does. *)
Theorem win_game_raises_iff gs e :
  win_game gs = inl e
  ↔ e = KeyError (current_difficulty gs)
    ∧ current_difficulty gs ≠ "easy"
    ∧ current_difficulty gs ≠ "medium"
    ∧ current_difficulty gs ≠ "hard".
Proof.
  unfold win_game. destruct (DIFFICULTIES !! current_difficulty gs) as [s|] eqn:Hs.
  - split; [done|]. intros (_ & He & Hm & Hh).
    apply DIFFICULTIES_lookup in Hs as [[? _]|[[? _]|[? _]]]; done.
  - split.
    + intros [= <-]. split; [done|].
      split_and!; intros Hd; rewrite Hd in Hs; by vm_compute in Hs.
    + by intros (-> & _).
Qed.

(** ** A round of Minesweeper *)




(** The round of the witness is won by its second click and pays 15.0 on
    the bankroll of 100.0; the click after the end changes nothing. *)
Example round_won :
  ∃ g, do_clicks (new_game "easy" easy top_mines, bet_10_easy)
                 [RightClick 0 0; LeftClick 8 0 0; LeftClick 0 0 0]
       = Done (g, mkLedger 115 0 "easy")
       ∧ terminal_of g = Won.
Proof. eexists. split; [vm_compute; reflexivity|]. by vm_compute. Qed.

(** * Properties of the card game *)

Lemma rank_cases rank :
  rank ∈ ranks →
  bool_decide (rank ∈ ["J"; "Q"; "K"]) = true
  ∨ (bool_decide (rank ∈ ["J"; "Q"; "K"]) = false ∧ bool_decide (rank = "A") = true)
  ∨ (bool_decide (rank ∈ ["J"; "Q"; "K"]) = false ∧ bool_decide (rank = "A") = false
     ∧ ∃ n, py_int rank = inr n ∧ 2 ≤ n ≤ 10).
Proof.
  intros Hr. unfold ranks in Hr. set_unfold. destruct_or!; subst;
    first [ left; vm_compute; reflexivity
          | right; left; split; vm_compute; reflexivity
          | right; right; split; [vm_compute; reflexivity|];
            split; [vm_compute; reflexivity|];
            eexists; split; [vm_compute; reflexivity|lia] ].
Qed.

Lemma count_card_deck st c :
  c.1 ∈ ranks →
  count_card st c
  = inr (st.1 + low_value c + (if bool_decide (c.1 = "A") then 10 else 0),
         (st.2 + if bool_decide (c.1 = "A") then 1 else 0)%nat)
  ∧ 1 ≤ low_value c ≤ 10.
Proof.
  destruct c as [rank suit], st as [value aces]. simpl. intros Hr.
  unfold count_card, low_value. simpl.
  destruct (rank_cases rank Hr) as [HJ|[[HJ HA]|(HJ & HA & n & Hn & Hrange)]].
  - rewrite HJ. destruct (bool_decide (rank = "A")) eqn:HA.
    + apply bool_decide_eq_true in HA. subst. by vm_compute in HJ.
    + split; [do 2 f_equal; lia|lia].
  - rewrite HJ, HA. split; [do 2 f_equal; lia|lia].
  - rewrite HJ, HA, Hn. split; [do 2 f_equal; lia|lia].
Qed.

Lemma hard_total_cons c hand : hard_total (c :: hand) = low_value c + hard_total hand.
Proof. done. Qed.

Lemma n_aces_cons c hand :
  n_aces (c :: hand) = ((if bool_decide (c.1 = "A") then 1 else 0) + n_aces hand)%nat.
Proof. unfold n_aces. rewrite filter_cons. by case_bool_decide; case_decide. Qed.

Lemma count_cards_deck st hand :
  deck_cards hand →
  count_cards st hand
  = inr (st.1 + hard_total hand + 10 * Z.of_nat (n_aces hand), (st.2 + n_aces hand)%nat).
Proof.
  revert st. induction hand as [|c hand IH]; intros st Hdeck; cbn [count_cards].
  { destruct st. unfold hard_total, n_aces. simpl. do 2 f_equal; lia. }
  apply Forall_cons in Hdeck as [Hc Hdeck].
  destruct (count_card_deck st c Hc) as [-> _]. rewrite IH by done. cbn [fst snd].
  rewrite hard_total_cons, n_aces_cons. do 2 f_equal; [|lia].
  case_bool_decide; lia.
Qed.

(** What the [while] loop of [hand_value] subtracts. *)
Lemma soften_spec value aces :
  ∃ j, (j ≤ aces)%nat
       ∧ soften value aces = value - 10 * Z.of_nat j
       ∧ (21 < soften value aces → j = aces)
       ∧ ((0 < j)%nat → 21 < soften value aces + 10).
Proof.
  revert value. induction aces as [|aces IH]; intros value; simpl.
  { exists O. split_and!; [done|lia|done|lia]. }
  destruct (Z.ltb_spec 21 value) as [Hgt|Hle].
  - destruct (IH (value - 10)) as (j & Hj & -> & Hall & Hlast).
    exists (S j). split_and!; [lia|lia|intros ?; f_equal; apply Hall; lia|].
    intros _. destruct j; [lia|]. apply Hlast. lia.
  - exists O. split_and!; [lia|lia|lia|lia].
Qed.

Lemma hand_value_deck hand :
  deck_cards hand →
  hand_value hand
  = inr (soften (hard_total hand + 10 * Z.of_nat (n_aces hand)) (n_aces hand)).
Proof. intros Hdeck. unfold hand_value. by rewrite count_cards_deck. Qed.

(** X15.  For a hand of cards of the deck, [hand_value] raises nothing and
    returns the best total of the hand: the total with every ace counted 1,
    plus 10 for each of [k] aces counted 11, where the result exceeds 21
    only if no ace is counted 11, and counting one more ace as 11 would
    exceed 21. *)
Theorem hand_value_best hand :
  deck_cards hand →
  ∃ v k,
    hand_value hand = inr v
    ∧ v = hard_total hand + 10 * Z.of_nat k
    ∧ (k ≤ n_aces hand)%nat
    ∧ (21 < v → k = O)
    ∧ ((k < n_aces hand)%nat → 21 < v + 10).
Proof.
  intros Hdeck. rewrite (hand_value_deck hand Hdeck).
  destruct (soften_spec (hard_total hand + 10 * Z.of_nat (n_aces hand)) (n_aces hand))
    as (j & Hj & Hv & Hall & Hlast).
  eexists _, (n_aces hand - j)%nat. split; [done|].
  split_and!; [lia|lia| |].
  - intros Hbust. rewrite (Hall Hbust). lia.
  - intros Hk. apply Hlast. lia.
Qed.

(** A soft 17, a hard 12 and a bust. *)
Example hand_value_examples :
  hand_value [("A", "x"); ("6", "x")] = inr 17
  ∧ hand_value [("A", "x"); ("A", "x"); ("K", "x")] = inr 12
  ∧ hand_value [("K", "x"); ("Q", "x"); ("2", "x")] = inr 22
  ∧ hand_value [("1", "x")] = inr 1
  ∧ hand_value [("Joker", "x")] = inl (ValueError "Joker").
Proof. by vm_compute. Qed.

Lemma hand_value_best_witness :
  ∃ v k, hand_value [("A", "x"); ("A", "x"); ("9", "x")] = inr v
         ∧ v = hard_total [("A", "x"); ("A", "x"); ("9", "x")] + 10 * Z.of_nat k.
Proof.
  destruct (hand_value_best [("A", "x"); ("A", "x"); ("9", "x")])
    as (v & k & Hv & Hk & _).
  - apply (bool_decide_unpack _). vm_compute. exact I.
  - exists v, k. split; [exact Hv|exact Hk].
Defined.

Lemma hard_total_perm hand hand' : hand ≡ₚ hand' → hard_total hand = hard_total hand'.
Proof.
  induction 1 as [|c h h' _ IH|c c' h|h1 h2 h3 _ IH1 _ IH2].
  - done.
  - by rewrite !hard_total_cons, IH.
  - rewrite !hard_total_cons. lia.
  - by rewrite IH1.
Qed.

(** X16.  The value of a hand of cards of the deck does not depend on the
    order of its cards. *)
Theorem hand_value_perm hand hand' :
  deck_cards hand → hand ≡ₚ hand' → hand_value hand = hand_value hand'.
Proof.
  intros Hdeck Hperm.
  assert (Hdeck' : deck_cards hand') by (unfold deck_cards; by rewrite <- Hperm).
  rewrite !hand_value_deck by done.
  rewrite (hard_total_perm _ _ Hperm). unfold n_aces. by rewrite Hperm.
Qed.

Lemma hand_value_perm_witness :
  hand_value [("A", "x"); ("K", "x"); ("5", "x")]
  = hand_value [("5", "x"); ("A", "x"); ("K", "x")].
Proof.
  apply hand_value_perm.
  - apply (bool_decide_unpack _). vm_compute. exact I.
  - apply (bool_decide_unpack _). vm_compute. exact I.
Defined.

Lemma hard_total_app hand hand' :
  hard_total (hand ++ hand') = hard_total hand + hard_total hand'.
Proof.
  induction hand as [|c hand IH]; [done|].
  change ((c :: hand) ++ hand') with (c :: (hand ++ hand')).
  rewrite !hard_total_cons, IH. lia.
Qed.

Lemma hard_total_nonneg hand : deck_cards hand → 0 ≤ hard_total hand.
Proof.
  induction 1 as [|c hand Hc _ IH]; [done|]. rewrite hard_total_cons.
  destruct (count_card_deck (0, O) c Hc) as [_ Hlow]. lia.
Qed.

Lemma dealer_draw_spec stack hand :
  deck_cards stack → deck_cards hand →
  17 ≤ hard_total hand + Z.of_nat (length stack) →
  ∃ drawn rest v,
    stack = drawn ++ rest
    ∧ dealer_draw stack hand = inr (rest, hand ++ drawn)
    ∧ hand_value (hand ++ drawn) = inr v ∧ 17 ≤ v
    ∧ (∀ n v', (n < length drawn)%nat →
               hand_value (hand ++ take n drawn) = inr v' → v' < 17)
    ∧ (drawn = [] ∨ hard_total hand + Z.of_nat (length drawn) ≤ 17).
Proof.
  revert hand. induction stack as [|c stack IH]; intros hand Hstack Hhand Hlen.
  - destruct (hand_value_best hand Hhand) as (v & k & Hv & Hk & _).
    exists [], [], v. simpl in *. rewrite Hv, app_nil_r.
    destruct (Z.ltb_spec v 17); [lia|]. split_and!; try done; [lia|by left].
  - destruct (hand_value_best hand Hhand) as (v & k & Hv & Hk & _).
    cbn [dealer_draw]. rewrite Hv. destruct (Z.ltb_spec v 17) as [Hlow|Hhigh].
    2:{ exists [], (c :: stack), v. rewrite app_nil_r.
        split_and!; try done; [simpl; lia|by left]. }
    apply Forall_cons in Hstack as [Hc Hstack].
    destruct (count_card_deck (0, O) c Hc) as [_ Hlowc].
    assert (Hhand' : deck_cards (hand ++ [c])).
    { apply Forall_app. split; [done|]. by apply Forall_singleton. }
    assert (Hhard' : hard_total (hand ++ [c]) = hard_total hand + low_value c).
    { rewrite hard_total_app. unfold hard_total at 2. simpl. lia. }
    destruct (IH (hand ++ [c]) Hstack Hhand') as (drawn & rest & v' & -> & Hrun & Hv' & Hge & Hpre & Hbound).
    { rewrite Hhard'. simpl in Hlen. lia. }
    exists (c :: drawn), rest, v'.
    replace (hand ++ c :: drawn) with ((hand ++ [c]) ++ drawn)
      by (by rewrite <- app_assoc).
    split_and!; try done.
    + intros [|n] w Hn Hw.
      * simpl in Hw. rewrite app_nil_r in Hw. congruence.
      * simpl in Hn, Hw. apply (Hpre n w); [lia|].
        by rewrite <- app_assoc.
    + right. simpl length. destruct Hbound as [->|Hb]; simpl; lia.
Qed.

(** X17.  With at least 17 cards of the deck left, [dealer_play] raises
    nothing: the dealer takes cards from the end of the deck, one at a time
    and only while the hand is worth less than 17, and stops with a hand
    worth at least 17, after at most 17 cards. *)
Theorem dealer_play_stands deck hand :
  deck_cards deck → deck_cards hand → (17 ≤ length deck)%nat →
  ∃ deck' drawn v,
    dealer_play deck hand = inr (deck', hand ++ drawn)
    ∧ deck = deck' ++ rev drawn
    ∧ hand_value (hand ++ drawn) = inr v ∧ 17 ≤ v
    ∧ (∀ n v', (n < length drawn)%nat →
               hand_value (hand ++ take n drawn) = inr v' → v' < 17)
    ∧ (length drawn ≤ 17)%nat.
Proof.
  intros Hdeck Hhand Hlen.
  pose proof (hard_total_nonneg hand Hhand) as Hnn.
  destruct (dealer_draw_spec (rev deck) hand)
    as (drawn & rest & v & Hsplit & Hrun & Hv & Hge & Hpre & Hbound).
  { by apply List.Forall_rev. }
  { done. }
  { rewrite List.length_rev. lia. }
  exists (rev rest), drawn, v. unfold dealer_play. rewrite Hrun.
  split_and!; try done.
  - by rewrite <- rev_app_distr, <- Hsplit, rev_involutive.
  - destruct Hbound as [->|Hb]; simpl; lia.
Qed.

Lemma dealer_play_stands_witness :
  ∃ deck' drawn v,
    dealer_play create_deck [("5", "x"); ("6", "x")] = inr (deck', [("5", "x"); ("6", "x")] ++ drawn)
    ∧ hand_value ([("5", "x"); ("6", "x")] ++ drawn) = inr v ∧ 17 ≤ v.
Proof.
  destruct (dealer_play_stands create_deck [("5", "x"); ("6", "x")])
    as (deck' & drawn & v & Hrun & _ & Hv & Hge & _).
  - apply (bool_decide_unpack _). vm_compute. exact I.
  - apply (bool_decide_unpack _). vm_compute. exact I.
  - vm_compute. lia.
  - exists deck', drawn, v. split; [exact Hrun|]. split; [exact Hv|exact Hge].
Defined.

(** Without a card to draw, a dealer below 17 raises [IndexError]. *)
Example dealer_play_empty_deck :
  dealer_play [] [("5", "x"); ("6", "x")] = inl IndexError.
Proof. reflexivity. Qed.

(** X18.  A player who stands on less than 17 never pushes: with at least
    17 cards of the deck left, [stand] raises nothing, the dealer ends on at
    least 17, and the bankroll gains the bet if the dealer is over 21 and
    loses it otherwise. *)
Theorem stand_below_17 bank bet deck player_hand dealer_hand pv :
  deck_cards deck → deck_cards dealer_hand → (17 ≤ length deck)%nat →
  hand_value player_hand = inr pv → pv < 17 →
  ∃ deck' dealer_hand' dv,
    hand_value dealer_hand' = inr dv ∧ 17 ≤ dv
    ∧ stand bank bet deck player_hand dealer_hand
      = inr (if 21 <? dv then (bank + bet)%float else (bank - bet)%float,
             deck', dealer_hand').
Proof.
  intros Hdeck Hhand Hlen Hpv Hlow.
  destruct (dealer_play_stands deck dealer_hand Hdeck Hhand Hlen)
    as (deck' & drawn & dv & Hrun & _ & Hdv & Hge & _).
  exists deck', (dealer_hand ++ drawn), dv. split_and!; [done..|].
  unfold stand, end_hand. rewrite Hrun, Hpv, Hdv.
  rewrite bool_decide_eq_false_2 by done.
  destruct (Z.ltb_spec 21 dv); simpl; [done|].
  destruct (Z.ltb_spec dv pv); [lia|]. simpl.
  destruct (Z.eqb_spec pv dv); [lia|done].
Qed.

Lemma stand_below_17_witness :
  ∃ deck' dealer_hand' dv,
    hand_value dealer_hand' = inr dv ∧ 17 ≤ dv
    ∧ stand 100 10 create_deck [("9", "x"); ("7", "x")] [("5", "x"); ("6", "x")]
      = inr (if 21 <? dv then (100 + 10)%float else (100 - 10)%float,
             deck', dealer_hand').
Proof.
  apply (stand_below_17 100 10 create_deck [("9", "x"); ("7", "x")]
           [("5", "x"); ("6", "x")] 16).
  - apply (bool_decide_unpack _). vm_compute. exact I.
  - apply (bool_decide_unpack _). vm_compute. exact I.
  - vm_compute. lia.
  - reflexivity.
  - lia.
Defined.

(** * Properties of the reel game *)

(** X19.  The four results of a spin, by the pattern of its symbols: the
    jackpot for three equal symbols, the fivefold payout for exactly two
    equal symbols, the double payout for three different symbols one of which
    is the seven, and the loss of the bet for three different symbols without
    a seven; so that a seven counts only when nothing matches. *)
Theorem spin_outcome_pattern a b c :
  (spin_outcome (a, b, c) = Jackpot ↔ a = b ∧ b = c)
  ∧ (spin_outcome (a, b, c) = Nice
     ↔ (a = b ∧ b ≠ c) ∨ (a = c ∧ a ≠ b) ∨ (b = c ∧ a ≠ b))
  ∧ (spin_outcome (a, b, c) = LuckySeven
     ↔ a ≠ b ∧ a ≠ c ∧ b ≠ c ∧ (a = seven ∨ b = seven ∨ c = seven))
  ∧ (spin_outcome (a, b, c) = YouLose
     ↔ a ≠ b ∧ a ≠ c ∧ b ≠ c ∧ a ≠ seven ∧ b ≠ seven ∧ c ≠ seven).
Proof.
  unfold spin_outcome.
  assert (Hlen : length (remove_dups [a; b; c])
                 = if decide (a = b) then if decide (b = c) then 1%nat else 2%nat
                   else if decide (a = c) then 2%nat
                   else if decide (b = c) then 2%nat else 3%nat).
  { cbn [remove_dups]. repeat case_decide; set_unfold; simpl; try done; naive_solver. }
  rewrite Hlen. clear Hlen.
  assert (H7 : bool_decide (seven ∈ [a; b; c])
               = bool_decide (a = seven ∨ b = seven ∨ c = seven)).
  { apply bool_decide_ext. set_unfold. naive_solver. }
  rewrite H7. clear H7.
  destruct (decide (a = b)), (decide (b = c)), (decide (a = c));
    rewrite ?(bool_decide_eq_true_2 (a = b)), ?(bool_decide_eq_false_2 (a = b)),
      ?(bool_decide_eq_true_2 (b = c)), ?(bool_decide_eq_false_2 (b = c)) by done;
    simpl; try case_bool_decide; split_and!; split; intros; try done;
    intuition congruence.
Qed.

(** X20.  Of the 216 spins of three of the six symbols, 6 are jackpots, 90
    pay fivefold, 60 pay double and 60 lose the bet: taken over all spins
    the machine pays 630 bets more than it takes. *)
Theorem spin_counts :
  length all_spins = 216%nat
  ∧ length (filter (fun s => spin_outcome s = Jackpot) all_spins) = 6%nat
  ∧ length (filter (fun s => spin_outcome s = Nice) all_spins) = 90%nat
  ∧ length (filter (fun s => spin_outcome s = LuckySeven) all_spins) = 60%nat
  ∧ length (filter (fun s => spin_outcome s = YouLose) all_spins) = 60%nat
  ∧ foldr (fun s n => net_gain (spin_outcome s) + n) 0 all_spins = 630.
Proof. vm_compute. by split_and!. Qed.

(** * Further properties of the game: flags and recursion depth *)

Lemma apply_move_keeps_revealed_flag g m g' p :
  reachable g → apply_move g m = Some g' →
  valid_position (rows g) (cols g) p.1 p.2 = true →
  mget false (revealed g) p.1 p.2 = true →
  mget false (revealed g') p.1 p.2 = true
  ∧ mget false (flagged g') p.1 p.2 = mget false (flagged g) p.1 p.2
  ∧ rows g' = rows g ∧ cols g' = cols g.
Proof.
  intros Hg Hm Hp Hr. destruct m as [row col pick|row col]; simpl in Hm.
  - destruct (reveal_cell g row col pick) as [[g'' ch]|] eqn:Hcall; [|done].
    injection Hm as ->.
    destruct (reveal_cell_frame g row col pick g' ch (reachable_inv g Hg) Hcall)
      as ((Hrows & Hcols & _) & Hf & Hmono & _).
    rewrite Hf. split_and!; [by apply Hmono|done..].
  - injection Hm as <-. unfold toggle_flag.
    destruct (game_over g); [done|]. simpl.
    destruct (_is_valid_position g row col) eqn:Hv; [|done]. simpl.
    destruct (mget false (revealed g) row col) eqn:Hr'; [done|]. simpl.
    split_and!; [done| |done..].
    destruct p as [r c]. simpl in *.
    apply valid_position_spec in Hv, Hp. apply mget_mset_ne; try lia.
    intros [= -> ->]. congruence.
Qed.

(** X21.  The flag of a revealed cell is frozen: whatever calls follow, a
    revealed cell stays revealed and keeps the flag bit it has, so that a
    flagged cell uncovered by the flood fill can never be unflagged. *)
Theorem revealed_cell_flag_frozen g ms g' p :
  reachable g → play g ms = Some g' →
  valid_position (rows g) (cols g) p.1 p.2 = true →
  mget false (revealed g) p.1 p.2 = true →
  mget false (revealed g') p.1 p.2 = true
  ∧ mget false (flagged g') p.1 p.2 = mget false (flagged g) p.1 p.2.
Proof.
  unfold play. revert g. induction ms as [|m ms IH]; intros g Hg Hplay Hp Hr;
    simpl in Hplay.
  { by injection Hplay as <-. }
  destruct (apply_move g m) as [g1|] eqn:Hm; [|done].
  destruct (apply_move_keeps_revealed_flag g m g1 p Hg Hm Hp Hr)
    as (Hr1 & Hf1 & Hrows & Hcols).
  destruct (IH g1) as [Hr' Hf']; [by eapply apply_move_reachable|done| |done|].
  { by rewrite Hrows, Hcols. }
  split; [done|]. by rewrite Hf'.
Qed.

Lemma revealed_cell_flag_frozen_witness :
  ∃ g1 g2,
    play (new_game "easy" easy top_mines) [Flag 8 1; Reveal 8 0 0] = Some g1
    ∧ play g1 [Flag 8 1; Flag 8 1; Reveal 8 1 0] = Some g2
    ∧ mget false (revealed g2) 8 1 = true
    ∧ mget false (flagged g2) 8 1 = true.
Proof.
  destruct (play (new_game "easy" easy top_mines) [Flag 8 1; Reveal 8 0 0])
    as [g1|] eqn:Hplay1; [|vm_compute in Hplay1; discriminate Hplay1].
  assert (Hfacts : valid_position (rows g1) (cols g1) 8 1 = true
                   ∧ mget false (revealed g1) 8 1 = true
                   ∧ mget false (flagged g1) 8 1 = true).
  { vm_compute in Hplay1. injection Hplay1 as <-. vm_compute. by split_and!. }
  destruct Hfacts as (Hv & Hr & Hf).
  destruct (play g1 [Flag 8 1; Flag 8 1; Reveal 8 1 0]) as [g2|] eqn:Hplay2.
  2:{ vm_compute in Hplay1. injection Hplay1 as <-. vm_compute in Hplay2.
      discriminate Hplay2. }
  assert (Hg1 : reachable g1).
  { eapply play_reachable; [|exact Hplay1]. solve_reach_new. }
  destruct (revealed_cell_flag_frozen g1 [Flag 8 1; Flag 8 1; Reveal 8 1 0] g2 (8, 1)
              Hg1 Hplay2 Hv Hr) as [Hr2 Hf2].
  exists g1, g2. split; [reflexivity|]. split; [exact Hplay2|].
  split; [exact Hr2|]. simpl in Hf2. rewrite Hf2. exact Hf.
Defined.

(** X22.  The recursion of [_flood_fill] is never deeper than the number of
    hidden cells plus one: in every state a game goes through, started on a
    cell that is no mine, [_flood_fill] returns with that much fuel, which is
    at most rows * cols + 1 (481 on the largest tier). *)
Theorem flood_fill_depth g row col :
  reachable g →
  (_is_valid_position g row col = true → ¬ is_mine (board g) (row, col)) →
  (∃ g', _flood_fill (S (length (hidden_cells g))) g row col = Some g')
  ∧ Z.of_nat (S (length (hidden_cells g))) ≤ rows g * cols g + 1.
Proof.
  intros Hinv%reachable_inv Hstart.
  destruct Hinv as ((_ & Hwr & _) & (Hr & Hc & _) & Hok & _).
  split.
  - destruct (flood_fill_spec (S (length (hidden_cells g))) g row col)
      as (g' & Hfill & _); [done..|lia|]. by exists g'.
  - pose proof (hidden_cells_bound g Hr Hc). unfold flood_fuel in *. lia.
Qed.

Lemma flood_fill_depth_witness :
  ∃ g', _flood_fill (S (length (hidden_cells (new_game "easy" easy top_mines))))
          (new_game "easy" easy top_mines) 8 0 = Some g'.
Proof.
  destruct (flood_fill_depth (new_game "easy" easy top_mines) 8 0) as [H _].
  - solve_reach_new.
  - intros _. vm_compute. discriminate.
  - exact H.
Defined.

(** Two sevens pay fivefold, not double; three of them are a jackpot. *)
Example settle_spin_sevens :
  settle_spin 100 10 (seven, seven, "x") = 150%float
  ∧ settle_spin 100 10 (seven, seven, seven) = 300%float
  ∧ settle_spin 100 10 (seven, "x", "y") = 120%float
  ∧ settle_spin 100 10 ("x", "y", "z") = 90%float.
Proof. by vm_compute. Qed.
